(** * In-trace sampler: a shallow embedding of [processor/intracesampler/processor.go]

    The processor receives a batch of spans (grouped by resource, then by
    instrumentation scope), decides from a hash of the trace identity
    whether the whole trace is kept, and otherwise removes every span whose
    whole subtree was produced by one of the configured "leaf" scopes.

    The Go maps are modelled by [gmap], the pdata slices by lists, the
    recursion of [getScopeBranchesToUnsampleRec] by a fuel-indexed
    [Fixpoint] whose [None] stands for "the call never returns". *)

From Stdlib Require Import ZArith Lia.
From stdpp Require Import gmap strings list fin_maps.

#[local] Set Warnings "-clear-no-such-hyp".

(** ** Data model (pcommon / ptrace) *)

(** [pcommon.SpanID] is [[8]byte] and [pcommon.TraceID] is [[16]byte]; both
    are only compared and used as map keys, so they are represented by the
    number their bytes spell. *)
Abbreviation pcommon_SpanID := N (only parsing).
Abbreviation pcommon_TraceID := N (only parsing).

Record pcommon_Resource := mkResource {
  ResourceAttributes : string
}.

Record pcommon_InstrumentationScope := mkScope {
  Name : string;
  Version : string
}.

Record ptrace_Span := mkSpan {
  SpanID : pcommon_SpanID;
  ParentSpanID : pcommon_SpanID;
  TraceID : pcommon_TraceID;
  SpanName : string
}.

Record ptrace_ScopeSpans := mkScopeSpans {
  Scope : pcommon_InstrumentationScope;
  Spans : list ptrace_Span
}.

Record ptrace_ResourceSpans := mkResourceSpans {
  Resource : pcommon_Resource;
  ScopeSpans : list ptrace_ScopeSpans
}.

Abbreviation ptrace_Traces := (list ptrace_ResourceSpans) (only parsing).

#[global] Instance pcommon_Resource_eq_dec : EqDecision pcommon_Resource.
Proof. solve_decision. Defined.
#[global] Instance pcommon_InstrumentationScope_eq_dec : EqDecision pcommon_InstrumentationScope.
Proof. solve_decision. Defined.
#[global] Instance ptrace_Span_eq_dec : EqDecision ptrace_Span.
Proof. solve_decision. Defined.
#[global] Instance ptrace_ScopeSpans_eq_dec : EqDecision ptrace_ScopeSpans.
Proof. solve_decision. Defined.
#[global] Instance ptrace_ResourceSpans_eq_dec : EqDecision ptrace_ResourceSpans.
Proof. solve_decision. Defined.

(** ** The trace tree *)

Record FullSpan := mkFullSpan {
  resource : pcommon_Resource;
  scope : pcommon_InstrumentationScope;
  span : ptrace_Span
}.

#[global] Instance FullSpan_eq_dec : EqDecision FullSpan.
Proof. solve_decision. Defined.

Record TraceTreeData := mkTraceTreeData {
  fullSpans : gmap N FullSpan;
  children : gmap N (list N);
  roots : list N
}.

(** Body of the innermost loop of [spansToTraceTree]: one span is entered
    in [fullSpans] (a later span with the same identity overwrites an
    earlier one) and appended to the children of its parent identity. *)
Definition addSpan (resource : pcommon_Resource) (scope : pcommon_InstrumentationScope)
    (acc : gmap N FullSpan * gmap N (list N)) (span : ptrace_Span)
    : gmap N FullSpan * gmap N (list N) :=
  let fullspan := {| resource := resource; scope := scope; span := span |} in
  (<[SpanID span := fullspan]> acc.1,
   <[ParentSpanID span := (acc.2 !!! ParentSpanID span) ++ [SpanID span]]> acc.2).

Definition addScopeSpans (resource : pcommon_Resource)
    (acc : gmap N FullSpan * gmap N (list N)) (ss : ptrace_ScopeSpans) :=
  foldl (addSpan resource (Scope ss)) acc (Spans ss).

Definition addResourceSpans (acc : gmap N FullSpan * gmap N (list N))
    (rs : ptrace_ResourceSpans) :=
  foldl (addScopeSpans (Resource rs)) acc (ScopeSpans rs).

(** The "find roots" loop ranges over the map [fullSpans]; Go leaves the
    order of that iteration unspecified, the model takes the order of
    [map_to_list].  Nothing below depends on the order (see
    [getScopeBranchesToUnsample_roots_order]). *)
Definition findRoots (fullSpans : gmap N FullSpan) : list N :=
  foldl (λ roots (fullspan : FullSpan),
           let parentSpanID := ParentSpanID (span fullspan) in
           match fullSpans !! parentSpanID with
           | Some _ => roots
           | None => roots ++ [SpanID (span fullspan)]
           end)
        [] (map_to_list fullSpans).*2.

Definition spansToTraceTree (td : ptrace_Traces) : TraceTreeData :=
  let acc := foldl addResourceSpans (∅, ∅) td in
  {| fullSpans := acc.1; children := acc.2; roots := findRoots acc.1 |}.

(** ** The single-trace check *)

(** State of the scan of [getSingleTraceId]: the pointer [traceId] ([None]
    is Go's [nil]), or the early [return nil]. *)
Inductive scanState :=
  | Scanning (traceId : option N)
  | ReturnedNil.

Definition scanSpan (st : scanState) (span : ptrace_Span) : scanState :=
  match st with
  | ReturnedNil => ReturnedNil
  | Scanning None => Scanning (Some (TraceID span))
  | Scanning (Some traceId) =>
      if decide (TraceID span ≠ traceId) then ReturnedNil else Scanning (Some traceId)
  end.

Definition scanScopeSpans (st : scanState) (ss : ptrace_ScopeSpans) : scanState :=
  foldl scanSpan st (Spans ss).

Definition scanResourceSpans (st : scanState) (rs : ptrace_ResourceSpans) : scanState :=
  foldl scanScopeSpans st (ScopeSpans rs).

Definition getSingleTraceId (td : ptrace_Traces) : option N :=
  match foldl scanResourceSpans (Scanning None) td with
  | Scanning traceId => traceId
  | ReturnedNil => None
  end.

(** ** Removal and compaction *)

(** pdata's [RemoveIf]: the callback is run once on every element, in
    order; it may change the element in place and tells whether the
    element is dropped.  The callback is modelled as returning the changed
    element together with the verdict. *)
Fixpoint RemoveIf {A} (f : A → A * bool) (es : list A) : list A :=
  match es with
  | [] => []
  | e :: es =>
      let r := f e in
      if r.2 then RemoveIf f es else r.1 :: RemoveIf f es
  end.

Definition removeSpan (idsToRemove : gmap N bool) (span : ptrace_Span) : ptrace_Span * bool :=
  let remove := default false (idsToRemove !! SpanID span) in
  (span, remove).

Definition removeInScopeSpans (idsToRemove : gmap N bool) (ss : ptrace_ScopeSpans)
    : ptrace_ScopeSpans * bool :=
  let ss' := {| Scope := Scope ss; Spans := RemoveIf (removeSpan idsToRemove) (Spans ss) |} in
  (ss', bool_decide (length (Spans ss') = 0)).

Definition removeInResourceSpans (idsToRemove : gmap N bool) (rs : ptrace_ResourceSpans)
    : ptrace_ResourceSpans * bool :=
  let rs' := {| Resource := Resource rs;
                ScopeSpans := RemoveIf (removeInScopeSpans idsToRemove) (ScopeSpans rs) |} in
  (rs', bool_decide (length (ScopeSpans rs') = 0)).

Definition removeSpansByIds (td : ptrace_Traces) (idsToRemove : gmap N bool) : ptrace_Traces :=
  RemoveIf (removeInResourceSpans idsToRemove) td.

(** ** Configuration and the scaled sampling rate *)

(** A finite, non-negative binary floating-point number [fmant * 2 ^ fexp].
    [SamplingPercentage] is validated non-negative before the processor is
    built, so signs, infinities and NaN are left out. *)
Record float := mkFloat {
  fmant : Z;
  fexp : Z
}.

(** A binary format: precision in bits and exponent of the smallest
    subnormal.  The declaration of [Config] is not part of the sources at
    hand, so the format of [SamplingPercentage] is a parameter;
    [binary32] is Go's [float32], [binary64] is [float64]. *)
Record binary_format := mkFormat {
  prec : Z;
  emin : Z
}.

Definition binary32 := {| prec := 24; emin := -149 |}.
Definition binary64 := {| prec := 53; emin := -1074 |}.

Definition in_format (fmt : binary_format) (x : float) : Prop :=
  (0 ≤ fmant x < 2 ^ prec fmt)%Z ∧ (emin fmt ≤ fexp x)%Z.

(** [floor (log2 (n / d))] for [0 < n], [0 < d]. *)
Definition floor_log2 (n d : Z) : Z :=
  let k := (Z.log2 n - Z.log2 d)%Z in
  if (0 <=? k)%Z
  then (if (d * 2 ^ k <=? n)%Z then k else k - 1)%Z
  else (if (d <=? n * 2 ^ (- k))%Z then k else k - 1)%Z.

(** Integer nearest to [n / d], ties to even ([0 ≤ n], [0 < d]). *)
Definition round_half_even (n d : Z) : Z :=
  let q := (n / d)%Z in
  let r := (n mod d)%Z in
  if (2 * r <? d)%Z then q
  else if (d <? 2 * r)%Z then (q + 1)%Z
  else if Z.even q then q else (q + 1)%Z.

(** IEEE 754 round-to-nearest-even of the rational [n / d] ([0 ≤ n],
    [0 < d]) in the format [fmt] (no overflow: the values here stay far
    below the largest finite number). *)
Definition round_nearest (fmt : binary_format) (n d : Z) : float :=
  if (n =? 0)%Z then {| fmant := 0; fexp := emin fmt |}
  else
    let e := Z.max (emin fmt) (floor_log2 n d - (prec fmt - 1)) in
    let m := if (0 <=? e)%Z then round_half_even n (d * 2 ^ e)
             else round_half_even (n * 2 ^ (- e)) d in
    {| fmant := m; fexp := e |}.

(** Floating-point multiplication: the exact product, rounded. *)
Definition fmul (fmt : binary_format) (x y : float) : float :=
  let m := (fmant x * fmant y)%Z in
  let e := (fexp x + fexp y)%Z in
  if (0 <=? e)%Z then round_nearest fmt (m * 2 ^ e) 1
  else round_nearest fmt m (2 ^ (- e)).

(** Go's conversion [uint32(f)] of a non-negative float: the fraction is
    discarded.  (Values of [2 ^ 32] and above are implementation-defined
    in Go; the sampling rate never gets there.) *)
Definition uint32_of_float (x : float) : N :=
  Z.to_N (if (0 <=? fexp x)%Z then fmant x * 2 ^ fexp x
          else fmant x / 2 ^ (- fexp x)).

Definition numHashBuckets : N := 0x4000.
Definition bitMaskHashBuckets : N := numHashBuckets - 1.
(** [numHashBuckets / 100.0] is an untyped constant; it takes the type of
    the other operand where it is used. *)
Definition percentageScaleFactor (fmt : binary_format) : float :=
  round_nearest fmt (Z.of_N numHashBuckets) 100.

Record Config := mkConfig {
  SamplingPercentage : float;
  HashSeed : N;
  ScopeLeaves : list string
}.

Record inTraceSamplerProcessor := mkProcessor {
  config : Config;
  scaledSamplingRate : N
}.

Definition newInTraceSamplerSpansProcessor (fmt : binary_format) (cfg : Config)
    : inTraceSamplerProcessor :=
  {| config := cfg;
     scaledSamplingRate :=
       uint32_of_float (fmul fmt (SamplingPercentage cfg) (percentageScaleFactor fmt)) |}.

(** ** The subtree evaluator *)

Definition slices_Contains (s : list string) (v : string) : bool :=
  bool_decide (v ∈ s).

Section evaluator.
Variable its : inTraceSamplerProcessor.
Variable traceTreeData : TraceTreeData.

(** The [for _, childSpanID := range ...] loop, over the recursive call
    [rec]; the loop has no early exit, every child is evaluated.  [St] is
    what the calls thread: the map [unsampledScopes]. *)
Fixpoint rangeChildren {St} (rec : N → St → option (bool * St))
    (cs : list N) (currentUnsampled : bool) (unsampledScopes : St)
    : option (bool * St) :=
  match cs with
  | [] => Some (currentUnsampled, unsampledScopes)
  | childSpanID :: cs =>
      '(childUnsampled, unsampledScopes) ← rec childSpanID unsampledScopes;
      rangeChildren rec cs (currentUnsampled && childUnsampled) unsampledScopes
  end.

(** [None]: the call does not return.  Either the recursion is deeper
    than [fuel] allows, or the identity has no entry in [fullSpans] (the
    zero [FullSpan] holds nil references and [scope.Name()] panics). *)
Fixpoint getScopeBranchesToUnsampleRec (fuel : nat) (currentSpanID : N)
    (unsampledScopes : gmap N bool) : option (bool * gmap N bool) :=
  match fuel with
  | O => None
  | S fuel =>
      currentFullSpan ← fullSpans traceTreeData !! currentSpanID;
      let currentScopeName := Name (scope currentFullSpan) in
      let currentUnsampled := slices_Contains (ScopeLeaves (config its)) currentScopeName in
      '(currentUnsampled, unsampledScopes) ←
        rangeChildren (getScopeBranchesToUnsampleRec fuel)
          (children traceTreeData !!! currentSpanID) currentUnsampled unsampledScopes;
      if (currentUnsampled : bool)
      then Some (currentUnsampled, <[SpanID (span currentFullSpan) := true]> unsampledScopes)
      else Some (currentUnsampled, unsampledScopes)
  end.

Fixpoint rangeRoots (fuel : nat) (rs : list N) (unsampledScopes : gmap N bool)
    : option (gmap N bool) :=
  match rs with
  | [] => Some unsampledScopes
  | rootSpanID :: rs =>
      '(_, unsampledScopes) ← getScopeBranchesToUnsampleRec fuel rootSpanID unsampledScopes;
      rangeRoots fuel rs unsampledScopes
  end.

Definition getScopeBranchesToUnsample (fuel : nat) : option (gmap N bool) :=
  rangeRoots fuel (roots traceTreeData) ∅.

(** *** The evaluator with a call log

    The same functions, threading next to [unsampledScopes] the list of the
    identities the evaluator was called on, in call order.  The log is
    only written, never read ([getScopeBranchesToUnsampleRec_erase]). *)
Fixpoint getScopeBranchesToUnsampleRec_logged (fuel : nat) (currentSpanID : N)
    (st : gmap N bool * list N) : option (bool * (gmap N bool * list N)) :=
  match fuel with
  | O => None
  | S fuel =>
      let st := (st.1, st.2 ++ [currentSpanID]) in
      currentFullSpan ← fullSpans traceTreeData !! currentSpanID;
      let currentScopeName := Name (scope currentFullSpan) in
      let currentUnsampled := slices_Contains (ScopeLeaves (config its)) currentScopeName in
      '(currentUnsampled, st) ←
        rangeChildren (getScopeBranchesToUnsampleRec_logged fuel)
          (children traceTreeData !!! currentSpanID) currentUnsampled st;
      if (currentUnsampled : bool)
      then Some (currentUnsampled, (<[SpanID (span currentFullSpan) := true]> st.1, st.2))
      else Some (currentUnsampled, st)
  end.

Fixpoint rangeRoots_logged (fuel : nat) (rs : list N) (st : gmap N bool * list N)
    : option (gmap N bool * list N) :=
  match rs with
  | [] => Some st
  | rootSpanID :: rs =>
      '(_, st) ← getScopeBranchesToUnsampleRec_logged fuel rootSpanID st;
      rangeRoots_logged fuel rs st
  end.

Definition getScopeBranchesToUnsample_logged (fuel : nat) : option (gmap N bool * list N) :=
  rangeRoots_logged fuel (roots traceTreeData) (∅, []).
End evaluator.

(** ** processTraces *)

Inductive LogEntry :=
  | Warn (msg : string)
  | Debug (msg : string) (num_spans : nat).

Section processor.
(** [hash] lives in another file of the package; it maps the bytes of
    the trace identity and the seed to an unsigned 32-bit number. *)
Variable hash : pcommon_TraceID → N → N.

Definition sampled (its : inTraceSamplerProcessor) (singleTraceId : pcommon_TraceID) : bool :=
  bool_decide (N.land (hash singleTraceId (HashSeed (config its))) bitMaskHashBuckets
               < scaledSamplingRate its)%N.

(** The returned error is always [nil] and is left out; the log entries
    the call emits are returned with the batch. *)
Definition processTraces (fuel : nat) (its : inTraceSamplerProcessor) (td : ptrace_Traces)
    : option (ptrace_Traces * list LogEntry) :=
  match getSingleTraceId td with
  | None =>
      Some (td, [Warn "in trace sampler received spans from different traces. it should run after tailsampler or groupby processor"])
  | Some singleTraceId =>
      if sampled its singleTraceId then Some (td, [])
      else
        let traceTreeData := spansToTraceTree td in
        unsampledSpanIds ← getScopeBranchesToUnsample its traceTreeData fuel;
        if bool_decide (size unsampledSpanIds = 0) then Some (td, [])
        else Some (removeSpansByIds td unsampledSpanIds,
                   [Debug "unsampling spans in a trace" (size unsampledSpanIds)])
  end.
End processor.

(** ** Views of a batch *)

Definition fullSpansOfScope (r : pcommon_Resource) (ss : ptrace_ScopeSpans) : list FullSpan :=
  mkFullSpan r (Scope ss) <$> Spans ss.

Definition fullSpansOfResource (rs : ptrace_ResourceSpans) : list FullSpan :=
  ScopeSpans rs ≫= fullSpansOfScope (Resource rs).

(** Every span of the batch with its resource and scope, in batch order. *)
Definition fullSpansOf (td : list ptrace_ResourceSpans) : list FullSpan :=
  td ≫= fullSpansOfResource.

Definition idOf (fs : FullSpan) : N := SpanID (span fs).
Definition parentOf (fs : FullSpan) : N := ParentSpanID (span fs).

Definition batchIds (td : list ptrace_ResourceSpans) : list N := idOf <$> fullSpansOf td.

(** "Unique span identities". *)
Definition uniqueSpanIDs (td : list ptrace_ResourceSpans) : Prop := NoDup (batchIds td).

#[global] Instance uniqueSpanIDs_dec td : Decision (uniqueSpanIDs td).
Proof. unfold uniqueSpanIDs. apply _. Defined.

(** One step of the tree builder on a span together with its context. *)
Definition addFull (acc : gmap N FullSpan * gmap N (list N)) (fs : FullSpan) :=
  (<[idOf fs := fs]> acc.1,
   <[parentOf fs := (acc.2 !!! parentOf fs) ++ [idOf fs]]> acc.2).

(** What the evaluator relies on; every tree built from a batch with unique
    span identities has these properties ([spansToTraceTree_wf]). *)
Record wfTree (T : TraceTreeData) : Prop := mkWfTree {
  wf_key : ∀ k fs, fullSpans T !! k = Some fs → idOf fs = k;
  wf_children : ∀ p c,
    c ∈ children T !!! p ↔ ∃ fs, fullSpans T !! c = Some fs ∧ parentOf fs = p;
  wf_children_NoDup : ∀ p, NoDup (children T !!! p);
  wf_roots : ∀ k,
    k ∈ roots T ↔ ∃ fs, fullSpans T !! k = Some fs ∧ fullSpans T !! parentOf fs = None;
  wf_roots_NoDup : NoDup (roots T)
}.

(** ** Example batches *)

Definition exampleSpan (id parent : N) : ptrace_Span :=
  {| SpanID := id; ParentSpanID := parent; TraceID := 7; SpanName := "op" |}.

Definition exampleResource : pcommon_Resource := {| ResourceAttributes := "service.name=shop" |}.

Definition scopeNamed (name : string) : pcommon_InstrumentationScope :=
  {| Name := name; Version := "1.0" |}.

(** root(A) -> child(A) -> grandchild(B) *)
Definition chain_AAB : list ptrace_ResourceSpans :=
  [ {| Resource := exampleResource;
       ScopeSpans := [ {| Scope := scopeNamed "A"; Spans := [exampleSpan 1 0; exampleSpan 2 1] |};
                       {| Scope := scopeNamed "B"; Spans := [exampleSpan 3 2] |} ] |} ].

(** root(A) -> child(A) -> grandchild(A) *)
Definition chain_AAA : list ptrace_ResourceSpans :=
  [ {| Resource := exampleResource;
       ScopeSpans := [ {| Scope := scopeNamed "A";
                          Spans := [exampleSpan 1 0; exampleSpan 2 1; exampleSpan 3 2] |} ] |} ].

(** A processor whose sampling rate is zero: no trace is wholly accepted. *)
Definition leavesProcessor (leaves : list string) : inTraceSamplerProcessor :=
  {| config := {| SamplingPercentage := {| fmant := 0; fexp := 0 |};
                  HashSeed := 22; ScopeLeaves := leaves |};
     scaledSamplingRate := 0 |}.

(** The spans of a batch, in batch order. *)
Definition spansOf (td : list ptrace_ResourceSpans) : list ptrace_Span :=
  span <$> fullSpansOf td.

(** Two spans of different traces in one batch. *)
Definition mixed_batch : list ptrace_ResourceSpans :=
  [ {| Resource := exampleResource;
       ScopeSpans := [ {| Scope := scopeNamed "A";
                          Spans := [ {| SpanID := 1; ParentSpanID := 0; TraceID := 7; SpanName := "a" |};
                                     {| SpanID := 2; ParentSpanID := 1; TraceID := 8; SpanName := "b" |} ] |} ] |} ].

Definition warnDifferentTraces : LogEntry :=
  Warn "in trace sampler received spans from different traces. it should run after tailsampler or groupby processor".

(** ** Removal and compaction, as the specification words it *)

(** Membership in the to-remove set: a missing key reads as [false]. *)
Definition marked (idsToRemove : gmap N bool) (id : N) : bool :=
  default false (idsToRemove !! id).

(** A scope-grouping without its marked spans. *)
Definition pruneScopeSpans (idsToRemove : gmap N bool) (ss : ptrace_ScopeSpans) : ptrace_ScopeSpans :=
  {| Scope := Scope ss;
     Spans := filter (λ s, marked idsToRemove (SpanID s) = false) (Spans ss) |}.

(** A resource-grouping with every scope-grouping pruned and the
    scope-groupings that are empty afterwards removed. *)
Definition pruneResourceSpans (idsToRemove : gmap N bool) (rs : ptrace_ResourceSpans)
    : ptrace_ResourceSpans :=
  {| Resource := Resource rs;
     ScopeSpans := filter (λ ss, Spans ss ≠ []) (pruneScopeSpans idsToRemove <$> ScopeSpans rs) |}.

(** The three-level cascade: resource-groupings that are empty after
    pruning are removed. *)
Definition compact (idsToRemove : gmap N bool) (td : list ptrace_ResourceSpans)
    : list ptrace_ResourceSpans :=
  filter (λ rs, ScopeSpans rs ≠ []) (pruneResourceSpans idsToRemove <$> td).

(** ** Relations on a trace tree *)

Section tree_relations.
Variable leaves : list string.
Variable T : TraceTreeData.

(** The span with identity [x] was produced by one of the leaf scopes. *)
Definition leafScoped (x : N) : Prop :=
  ∃ fs, fullSpans T !! x = Some fs ∧ Name (scope fs) ∈ leaves.

(** [isPrunable]: own scope among the leaves, and every child prunable. *)
Inductive prunable : N → Prop :=
  | prunable_node x :
      leafScoped x → (∀ c, c ∈ children T !!! x → prunable c) → prunable x.

(** [inSubtree x y]: [y] is [x] or is reachable from [x] through the
    children mapping. *)
Inductive inSubtree : N → N → Prop :=
  | inSubtree_self x : inSubtree x x
  | inSubtree_child x c y : c ∈ children T !!! x → inSubtree c y → inSubtree x y.

(** [depth x d]: following the parent identities from the span [x] leaves
    the batch after [d] steps inside it. *)
Inductive depth : N → nat → Prop :=
  | depth_root x fs :
      fullSpans T !! x = Some fs → fullSpans T !! parentOf fs = None → depth x 0
  | depth_child x fs d :
      fullSpans T !! x = Some fs → depth (parentOf fs) d → depth x (S d).

(** The [j]-th ancestor of [y] ([y] itself for [j = 0]). *)
Fixpoint ancestor (j : nat) (y : N) : option N :=
  match j with
  | O => Some y
  | S j => fs ← fullSpans T !! y; ancestor j (parentOf fs)
  end.

(** Does the chain of parents of [x] leave the batch within [fuel] steps? *)
Fixpoint leavesBatch (fuel : nat) (x : N) : bool :=
  match fuel with
  | O => false
  | S fuel =>
      match fullSpans T !! x with
      | None => true
      | Some fs => leavesBatch fuel (parentOf fs)
      end
  end.

(** The identities the evaluator is called on when started on [x], in
    call order (cut off where the fuel ends). *)
Fixpoint preorder (fuel : nat) (x : N) : list N :=
  match fuel with
  | O => []
  | S fuel => x :: (children T !!! x ≫= preorder fuel)
  end.
End tree_relations.

(** "Acyclic parent references": from every span of the batch the chain of
    parents leaves the batch; a chain that stays inside for more steps
    than there are spans has come back to a span it passed. *)
Definition acyclicParents (td : list ptrace_ResourceSpans) : Prop :=
  Forall (λ k, leavesBatch (spansToTraceTree td) (S (length (batchIds td))) k = true)
         (batchIds td).

#[global] Instance acyclicParents_dec td : Decision (acyclicParents td).
Proof. unfold acyclicParents. apply _. Defined.

(** ** Specification of the evaluator *)

(** Only [true] is ever stored in the to-remove set. *)
Definition alltrue (m : gmap N bool) : Prop := ∀ k v, m !! k = Some v → v = true.

Section evaluator_spec.
Variable leaves : list string.
Variable T : TraceTreeData.

(** What one call on [x] does to the state [st], giving [r]. *)
Definition recSpec (f : nat) (x : N) (st : gmap N bool * list N)
    (r : bool * (gmap N bool * list N)) : Prop :=
  (r.1 = true ↔ prunable leaves T x)
  ∧ r.2.2 = st.2 ++ preorder T f x
  ∧ (∀ y, inSubtree T x y → y ∈ preorder T f x)
  ∧ (∀ k, marked r.2.1 k = true ↔
          marked st.1 k = true ∨ (k ∈ preorder T f x ∧ prunable leaves T k))
  ∧ (alltrue st.1 → alltrue r.2.1).

(** What the loop over the children [cs] does. *)
Definition loopSpec (f : nat) (cs : list N) (cur : bool) (st : gmap N bool * list N)
    (r : bool * (gmap N bool * list N)) : Prop :=
  (r.1 = true ↔ cur = true ∧ ∀ c, c ∈ cs → prunable leaves T c)
  ∧ r.2.2 = st.2 ++ (cs ≫= preorder T f)
  ∧ (∀ c y, c ∈ cs → inSubtree T c y → y ∈ preorder T f c)
  ∧ (∀ k, marked r.2.1 k = true ↔
          marked st.1 k = true ∨ (k ∈ cs ≫= preorder T f ∧ prunable leaves T k))
  ∧ (alltrue st.1 → alltrue r.2.1).
End evaluator_spec.

(** Forgetting the call log. *)
Definition erase (r : bool * (gmap N bool * list N)) : bool * gmap N bool := (r.1, r.2.1).

(** How often the evaluator was called on [k], read off the call log. *)
Definition callsOn (log : list N) (k : N) : nat := length (filter (λ y, y = k) log).

(** One span that names itself as its parent. *)
Definition self_parent_batch : list ptrace_ResourceSpans :=
  [ {| Resource := exampleResource;
       ScopeSpans := [ {| Scope := scopeNamed "A"; Spans := [exampleSpan 1 1] |} ] |} ].

(** Two spans that name each other as parent, next to a proper root. *)
Definition cycle_batch : list ptrace_ResourceSpans :=
  [ {| Resource := exampleResource;
       ScopeSpans := [ {| Scope := scopeNamed "A";
                          Spans := [exampleSpan 1 2; exampleSpan 2 1; exampleSpan 3 0] |} ] |} ].

(** ** The pruning transform

    Tree build, subtree evaluation and removal: what [processTraces] does
    with a batch once the sampling decision has not accepted the trace
    (the log entry left out). *)
Definition pruneTraces (fuel : nat) (its : inTraceSamplerProcessor)
    (td : list ptrace_ResourceSpans) : option (list ptrace_ResourceSpans) :=
  let traceTreeData := spansToTraceTree td in
  unsampledSpanIds ← getScopeBranchesToUnsample its traceTreeData fuel;
  if bool_decide (size unsampledSpanIds = 0) then Some td
  else Some (removeSpansByIds td unsampledSpanIds).

(** A batch with a resource-grouping that holds no span to begin with,
    between one whose only span is prunable and one that is kept. *)
Definition dropRS : ptrace_ResourceSpans :=
  {| Resource := exampleResource;
     ScopeSpans := [ {| Scope := scopeNamed "drop"; Spans := [exampleSpan 1 0] |} ] |}.

Definition emptyRS : ptrace_ResourceSpans :=
  {| Resource := {| ResourceAttributes := "service.name=idle" |};
     ScopeSpans := [ {| Scope := scopeNamed "keep"; Spans := [] |} ] |}.

Definition keepRS : ptrace_ResourceSpans :=
  {| Resource := exampleResource;
     ScopeSpans := [ {| Scope := scopeNamed "keep"; Spans := [exampleSpan 2 0] |} ] |}.

Definition empty_grouping_batch : list ptrace_ResourceSpans := [dropRS; emptyRS; keepRS].

(** Two spans with one identity, the first under a scope that is kept, the
    second under a leaf scope. *)
Definition duplicate_id_batch : list ptrace_ResourceSpans :=
  [ {| Resource := exampleResource;
       ScopeSpans := [ {| Scope := scopeNamed "keep"; Spans := [exampleSpan 1 0] |};
                       {| Scope := scopeNamed "drop"; Spans := [exampleSpan 1 0] |} ] |} ].

(** ** The threshold of the specification *)

(** The value of [pct] is the integer [z]. *)
Definition float_is (pct : float) (z : Z) : Prop :=
  if (0 <=? fexp pct)%Z then (fmant pct * 2 ^ fexp pct = z)%Z
  else (fmant pct = z * 2 ^ (- fexp pct))%Z.

(** The value of [pct] is at most 100. *)
Definition at_most_100 (pct : float) : Prop :=
  if (0 <=? fexp pct)%Z then (fmant pct * 2 ^ fexp pct ≤ 100)%Z
  else (fmant pct ≤ 100 * 2 ^ (- fexp pct))%Z.

(** [floor (pct * numHashBuckets / 100)], computed exactly on the
    rational value of [pct]. *)
Definition exactThreshold (pct : float) : N :=
  Z.to_N (if (0 <=? fexp pct)%Z
          then (fmant pct * 2 ^ fexp pct * Z.of_N numHashBuckets) / 100
          else (fmant pct * Z.of_N numHashBuckets) / (100 * 2 ^ (- fexp pct)))%Z.

(** The same floor for the percentage [m * 2 ^ (- a)], with the common
    factors of [numHashBuckets / 100 = 4096 / 25] cancelled. *)
Definition floorScaled (m a : Z) : Z :=
  if (a <? 12)%Z then ((m * 2 ^ (12 - a)) / 25)%Z else (m / (25 * 2 ^ (a - 12)))%Z.

(** 15.3 as a [float32]. *)
Definition pct_15_3 : float := {| fmant := 16043213; fexp := -20 |}.

(** Closed decidable facts about concrete batches are settled by evaluation. *)
Ltac by_evaluation := apply (bool_decide_unpack _); vm_compute; exact I.

(** Three spans of one trace, two of them with identity 1: a declared root
    1 with child 2, and a second span 1 that names 2 as its parent. *)
Definition duplicate_cycle_batch : list ptrace_ResourceSpans :=
  [ {| Resource := exampleResource;
       ScopeSpans := [ {| Scope := scopeNamed "A";
                          Spans := [exampleSpan 1 2; exampleSpan 2 1; exampleSpan 1 0] |} ] |} ].

(** The value of [x] is at most the value of [y]; the two mantissas are
    compared after both floats are brought to the smaller exponent. *)
Definition float_le (x y : float) : Prop :=
  (fmant x * 2 ^ (fexp x - Z.min (fexp x) (fexp y))
   ≤ fmant y * 2 ^ (fexp y - Z.min (fexp x) (fexp y)))%Z.

(* ================================================================= *)
(** * Properties *)

(** ** The tree builder *)

Lemma foldl_fmap {A B C} (f : A → C → A) (g : B → C) a (l : list B) :
  foldl f a (g <$> l) = foldl (λ a b, f a (g b)) a l.
Proof. revert a. induction l as [|b l IH]; intros a; simpl; [done|apply IH]. Qed.

Lemma foldl_bind {A B C} (f : A → C → A) (g : B → list C) a (l : list B) :
  foldl f a (l ≫= g) = foldl (λ a b, foldl f a (g b)) a l.
Proof.
  revert a. induction l as [|b l IH]; intros a; [done|].
  rewrite bind_cons, foldl_app. apply IH.
Qed.

Lemma spansToTraceTree_flat td :
  foldl addResourceSpans (∅, ∅) td = foldl addFull (∅, ∅) (fullSpansOf td).
Proof.
  unfold fullSpansOf. rewrite foldl_bind.
  generalize (∅ : gmap N FullSpan, ∅ : gmap N (list N)).
  induction td as [|rs td IH]; intros acc; [done|]. simpl. rewrite <- IH. f_equal.
  unfold addResourceSpans, fullSpansOfResource. rewrite foldl_bind.
  generalize (ScopeSpans rs). intros l. revert acc.
  induction l as [|ss l IHl]; intros acc; [done|]. simpl. rewrite <- IHl. f_equal.
  unfold addScopeSpans, fullSpansOfScope. rewrite foldl_fmap. done.
Qed.
Lemma addFull_fullSpans l k :
  (foldl addFull (∅, ∅) l).1 !! k = last (filter (λ fs, idOf fs = k) l).
Proof.
  induction l as [|fs l IH] using rev_ind; [done|].
  rewrite foldl_app, filter_app. simpl.
  rewrite lookup_insert. case_decide as Hk.
  - rewrite filter_cons_True by done. by rewrite filter_nil, last_snoc.
  - rewrite filter_cons_False by done. by rewrite filter_nil, app_nil_r.
Qed.

Lemma addFull_children l p :
  (foldl addFull (∅, ∅) l).2 !!! p = idOf <$> filter (λ fs, parentOf fs = p) l.
Proof.
  induction l as [|fs l IH] using rev_ind; [done|].
  rewrite foldl_app, filter_app, fmap_app. simpl.
  rewrite lookup_total_insert. case_decide as Hp.
  - subst p. rewrite IH. by rewrite filter_cons_True by done.
  - rewrite filter_cons_False by done. by rewrite filter_nil, app_nil_r.
Qed.

Lemma NoDup_fmap_elem_inj {A B} (f : A → B) (l : list A) x y :
  NoDup (f <$> l) → x ∈ l → y ∈ l → f x = f y → x = y.
Proof.
  induction l as [|a l IH]; simpl; [by intros _ ?%elem_of_nil|].
  intros [Ha Hl]%NoDup_cons [->|Hx]%elem_of_cons [->|Hy]%elem_of_cons Hxy; try done.
  - destruct Ha. rewrite Hxy. by apply list_elem_of_fmap_2.
  - destruct Ha. rewrite <- Hxy. by apply list_elem_of_fmap_2.
  - by apply IH.
Qed.

Section tree_of_batch.
Variable td : list ptrace_ResourceSpans.
Local Abbreviation T := (spansToTraceTree td).

Lemma tree_fullSpans k :
  fullSpans T !! k = last (filter (λ fs, idOf fs = k) (fullSpansOf td)).
Proof. unfold spansToTraceTree. simpl. rewrite spansToTraceTree_flat. apply addFull_fullSpans. Qed.

Lemma tree_children p :
  children T !!! p = idOf <$> filter (λ fs, parentOf fs = p) (fullSpansOf td).
Proof. unfold spansToTraceTree. simpl. rewrite spansToTraceTree_flat. apply addFull_children. Qed.

Lemma tree_fullSpans_Some k fs :
  fullSpans T !! k = Some fs → idOf fs = k ∧ fs ∈ fullSpansOf td.
Proof.
  rewrite tree_fullSpans. intros H%last_Some_elem_of.
  by apply list_elem_of_filter in H.
Qed.

Lemma tree_fullSpans_is_Some k :
  is_Some (fullSpans T !! k) ↔ k ∈ batchIds td.
Proof.
  rewrite tree_fullSpans, last_is_Some. unfold batchIds. split.
  - intros Hne. destruct (filter _ _) as [|fs l] eqn:E; [done|].
    assert (fs ∈ filter (λ fs, idOf fs = k) (fullSpansOf td)) as Hin by (rewrite E; left).
    apply list_elem_of_filter in Hin as [<- Hin]. by apply list_elem_of_fmap_2.
  - intros (fs & -> & Hin)%list_elem_of_fmap Hnil.
    exact (filter_nil_not_elem_of _ _ fs Hnil eq_refl Hin).
Qed.

Lemma tree_fullSpans_unique fs :
  uniqueSpanIDs td → fs ∈ fullSpansOf td → fullSpans T !! idOf fs = Some fs.
Proof.
  intros Hu Hin.
  destruct (fullSpans T !! idOf fs) as [fs'|] eqn:E.
  - apply tree_fullSpans_Some in E as [E1 E2]. f_equal.
    symmetry. by eapply (NoDup_fmap_elem_inj idOf (fullSpansOf td)).
  - assert (is_Some (fullSpans T !! idOf fs)) as [? ?]; [|congruence].
    apply tree_fullSpans_is_Some. by apply list_elem_of_fmap_2.
Qed.
End tree_of_batch.

Lemma findRoots_filter (F : gmap N FullSpan) :
  findRoots F = idOf <$> filter (λ fs, F !! parentOf fs = None) (map_to_list F).*2.
Proof.
  unfold findRoots. generalize ((map_to_list F).*2). intros l.
  enough (∀ acc, foldl (λ roots (fullspan : FullSpan),
                   match F !! ParentSpanID (span fullspan) with
                   | Some _ => roots
                   | None => roots ++ [SpanID (span fullspan)]
                   end) acc l
                 = acc ++ (idOf <$> filter (λ fs, F !! parentOf fs = None) l)) as H
    by apply (H []).
  induction l as [|fs l IH]; intros acc; simpl.
  - by rewrite app_nil_r.
  - rewrite IH. fold (parentOf fs). destruct (F !! parentOf fs) eqn:E.
    + by rewrite filter_cons_False by (rewrite E; done).
    + rewrite filter_cons_True by done. simpl. by rewrite <- app_assoc.
Qed.

Lemma findRoots_spec (F : gmap N FullSpan) k :
  (∀ k fs, F !! k = Some fs → idOf fs = k) →
  k ∈ findRoots F ↔ ∃ fs, F !! k = Some fs ∧ F !! parentOf fs = None.
Proof.
  intros Hkey. rewrite findRoots_filter, list_elem_of_fmap. split.
  - intros (fs & -> & [Hp Hin]%list_elem_of_filter).
    apply list_elem_of_fmap in Hin as ([k' fs'] & -> & Hin). simpl in *.
    apply elem_of_map_to_list in Hin. exists fs'. by rewrite (Hkey _ _ Hin).
  - intros (fs & Hfs & Hp). exists fs. split; [by rewrite (Hkey _ _ Hfs)|].
    apply list_elem_of_filter. split; [done|].
    apply list_elem_of_fmap. exists (k, fs). by rewrite elem_of_map_to_list.
Qed.

Lemma findRoots_NoDup (F : gmap N FullSpan) :
  (∀ k fs, F !! k = Some fs → idOf fs = k) → NoDup (findRoots F).
Proof.
  intros Hkey. rewrite findRoots_filter.
  assert (∀ l : list (N * FullSpan), (∀ k fs, (k, fs) ∈ l → idOf fs = k) →
            sublist (idOf <$> filter (λ fs, F !! parentOf fs = None) l.*2) l.*1) as Hsub.
  { induction l as [|[k fs] l IH]; intros Hl; simpl; [done|].
    assert (sublist (idOf <$> filter (λ fs, F !! parentOf fs = None) l.*2) l.*1) as IH'.
    { apply IH. intros ???. apply Hl. by right. }
    rewrite filter_cons. case_decide.
    - simpl. rewrite (Hl k fs) by left. by constructor.
    - by constructor. }
  eapply sublist_NoDup; [apply (NoDup_fst_map_to_list F)|apply Hsub].
  intros k fs ?%elem_of_map_to_list. by apply Hkey.
Qed.

Lemma spansToTraceTree_wf td : uniqueSpanIDs td → wfTree (spansToTraceTree td).
Proof.
  intros Hu.
  assert (∀ k fs, fullSpans (spansToTraceTree td) !! k = Some fs → idOf fs = k) as Hkey.
  { intros k fs H. by apply tree_fullSpans_Some in H as [? _]. }
  split; [done| | | |].
  - intros p c. rewrite tree_children, list_elem_of_fmap. split.
    + intros (fs & -> & [Hp Hin]%list_elem_of_filter). exists fs.
      split; [by apply tree_fullSpans_unique|done].
    + intros (fs & Hfs & Hp). apply tree_fullSpans_Some in Hfs as [<- Hin].
      exists fs. split; [done|]. by apply list_elem_of_filter.
  - intros p. rewrite tree_children.
    eapply sublist_NoDup; [exact Hu|]. apply fmap_sublist, sublist_filter.
  - intros k. by apply findRoots_spec.
  - by apply findRoots_NoDup.
Qed.

(** C8: for a batch with unique span identities, the roots of the tree are
    exactly the identities of the batch's spans whose parent identity is
    not the identity of a span of the batch (each listed once); so every
    root is a key of [fullSpans], and the parent of every span that is not
    a root is a key of [fullSpans]. *)
Theorem C8_roots_characterised (td : list ptrace_ResourceSpans) :
  uniqueSpanIDs td →
  (∀ k, is_Some (fullSpans (spansToTraceTree td) !! k) ↔ k ∈ batchIds td)
  ∧ (∀ k, k ∈ roots (spansToTraceTree td) ↔
          ∃ fs, fs ∈ fullSpansOf td ∧ SpanID (span fs) = k
                ∧ ParentSpanID (span fs) ∉ batchIds td)
  ∧ NoDup (roots (spansToTraceTree td))
  ∧ (∀ k, k ∈ roots (spansToTraceTree td) → is_Some (fullSpans (spansToTraceTree td) !! k))
  ∧ (∀ k fs, fullSpans (spansToTraceTree td) !! k = Some fs →
             k ∉ roots (spansToTraceTree td) →
             is_Some (fullSpans (spansToTraceTree td) !! ParentSpanID (span fs))).
Proof.
  intros Hu. pose proof (spansToTraceTree_wf td Hu) as Hwf.
  split; [apply tree_fullSpans_is_Some|].
  split; [|split; [apply Hwf|split]].
  - intros k. rewrite (wf_roots _ Hwf). split.
    + intros (fs & Hfs & Hp). exists fs.
      apply tree_fullSpans_Some in Hfs as [Hk Hin]. split_and!; [done..|].
      rewrite <- tree_fullSpans_is_Some. fold (parentOf fs). rewrite Hp. by intros [? ?].
    + intros (fs & Hin & Hk & Hp). exists fs. split.
      * rewrite <- Hk. by apply tree_fullSpans_unique.
      * rewrite <- tree_fullSpans_is_Some in Hp. by apply eq_None_not_Some.
  - intros k (fs & Hfs & _)%(wf_roots _ Hwf). by exists fs.
  - intros k fs Hfs Hk.
    destruct (fullSpans (spansToTraceTree td) !! ParentSpanID (span fs)) eqn:E; [by eexists|].
    destruct Hk. apply (wf_roots _ Hwf). by exists fs.
Qed.

Lemma C8_roots_characterised_witness :
  roots (spansToTraceTree chain_AAB) = [1%N]
  ∧ NoDup (roots (spansToTraceTree chain_AAB))
  ∧ ∀ k, k ∈ roots (spansToTraceTree chain_AAB) →
         is_Some (fullSpans (spansToTraceTree chain_AAB) !! k).
Proof.
  split; [reflexivity|].
  assert (uniqueSpanIDs chain_AAB) as Hu by by_evaluation.
  destruct (C8_roots_characterised chain_AAB Hu) as (_ & _ & Hnd & Hsub & _).
  split; [exact Hnd|exact Hsub].
Defined.

(** ** The single-trace check *)

Lemma getSingleTraceId_flat td :
  foldl scanResourceSpans (Scanning None) td = foldl scanSpan (Scanning None) (spansOf td).
Proof.
  unfold spansOf, fullSpansOf. rewrite foldl_fmap, foldl_bind.
  generalize (Scanning None).
  induction td as [|rs td IH]; intros st; [done|]. simpl. rewrite <- IH. f_equal.
  unfold scanResourceSpans, fullSpansOfResource. rewrite foldl_bind.
  generalize (ScopeSpans rs). intros l. revert st.
  induction l as [|ss l IHl]; intros st; [done|]. simpl. rewrite <- IHl. f_equal.
  unfold scanScopeSpans, fullSpansOfScope. by rewrite foldl_fmap.
Qed.

Lemma scanSpan_returned l : foldl scanSpan ReturnedNil l = ReturnedNil.
Proof. by induction l. Qed.

Lemma scanSpan_same t l :
  (∀ s, s ∈ l → TraceID s = t) → foldl scanSpan (Scanning (Some t)) l = Scanning (Some t).
Proof.
  induction l as [|s l IH]; intros Hl; [done|]. simpl.
  rewrite decide_False; [apply IH|]; [intros; apply Hl; by right|].
  intros Hs. apply Hs, Hl. by left.
Qed.

Lemma scanSpan_differs t l s :
  s ∈ l → TraceID s ≠ t → foldl scanSpan (Scanning (Some t)) l = ReturnedNil.
Proof.
  induction l as [|s' l IH]; intros Hin Hne; [by apply elem_of_nil in Hin|]. simpl.
  case_decide as Hd; [apply scanSpan_returned|].
  apply elem_of_cons in Hin as [->|Hin]; [|by apply IH].
  destruct Hd. done.
Qed.

Lemma getSingleTraceId_Some td t :
  getSingleTraceId td = Some t ↔ spansOf td ≠ [] ∧ ∀ s, s ∈ spansOf td → TraceID s = t.
Proof.
  unfold getSingleTraceId. rewrite getSingleTraceId_flat.
  destruct (spansOf td) as [|s0 l]; simpl; [by split; [|intros [? _]]|].
  destruct (decide (Forall (λ s, TraceID s = TraceID s0) l)) as [Hall|Hnot].
  - rewrite Forall_forall in Hall. rewrite scanSpan_same by done. split.
    + intros [= <-]. split; [done|]. intros s [->|?]%elem_of_cons; auto.
    + intros [_ H]. f_equal. apply H. by left.
  - apply not_Forall_Exists in Hnot; [|apply _].
    apply Exists_exists in Hnot as (s & Hin & Hne).
    rewrite (scanSpan_differs _ _ s) by done. split; [done|].
    intros [_ H]. destruct Hne. rewrite (H s), (H s0); [done|by left|by right].
Qed.

Lemma getSingleTraceId_None td :
  getSingleTraceId td = None ↔
  spansOf td = [] ∨ ∃ s1 s2, s1 ∈ spansOf td ∧ s2 ∈ spansOf td ∧ TraceID s1 ≠ TraceID s2.
Proof.
  split.
  - intros Hnone. destruct (spansOf td) as [|s0 l] eqn:E; [by left|right].
    destruct (decide (Forall (λ s, TraceID s = TraceID s0) l)) as [Hall|Hnot].
    + rewrite Forall_forall in Hall.
      assert (getSingleTraceId td = Some (TraceID s0)) as Hsome; [|congruence].
      apply getSingleTraceId_Some. rewrite E. split; [done|].
      intros s [->|?]%elem_of_cons; auto.
    + apply not_Forall_Exists in Hnot; [|apply _].
      apply Exists_exists in Hnot as (s & Hin & Hne).
      exists s, s0. split_and!; [by right|by left|done].
  - intros H. destruct (getSingleTraceId td) as [t|] eqn:E; [|done].
    apply getSingleTraceId_Some in E as [Hne Hall].
    destruct H as [H|(s1 & s2 & H1 & H2 & H12)]; [done|].
    destruct H12. by rewrite (Hall s1), (Hall s2).
Qed.

(** C4: the single-trace check finds no identity exactly when the batch has
    no span or holds spans of two different traces, and finds [t] exactly
    when the batch has a span and all its spans belong to trace [t]; on a
    batch without a single identity [processTraces] returns the batch as
    it is (no span removed) and emits the warning. *)
Theorem C4_not_single_trace_passes_through
    (hash : N → N → N) (fuel : nat) (its : inTraceSamplerProcessor)
    (td : list ptrace_ResourceSpans) :
  (getSingleTraceId td = None ↔
     spansOf td = [] ∨
     ∃ s1 s2, s1 ∈ spansOf td ∧ s2 ∈ spansOf td ∧ TraceID s1 ≠ TraceID s2)
  ∧ (∀ t, getSingleTraceId td = Some t ↔
          spansOf td ≠ [] ∧ ∀ s, s ∈ spansOf td → TraceID s = t)
  ∧ (spansOf td = [] ∨
     (∃ s1 s2, s1 ∈ spansOf td ∧ s2 ∈ spansOf td ∧ TraceID s1 ≠ TraceID s2) →
     processTraces hash fuel its td = Some (td, [warnDifferentTraces])).
Proof.
  split; [apply getSingleTraceId_None|]. split; [intros t; apply getSingleTraceId_Some|].
  intros H%getSingleTraceId_None. unfold processTraces. by rewrite H.
Qed.

Lemma C4_not_single_trace_passes_through_witness :
  processTraces (λ _ _, 0%N) 0 (leavesProcessor ["A"]) mixed_batch
    = Some (mixed_batch, [warnDifferentTraces])
  ∧ processTraces (λ _ _, 0%N) 0 (leavesProcessor ["A"]) []
    = Some ([], [warnDifferentTraces]).
Proof.
  split.
  - apply (C4_not_single_trace_passes_through (λ _ _, 0%N) 0 (leavesProcessor ["A"]) mixed_batch).
    right. exists (mkSpan 1 0 7 "a"), (mkSpan 2 1 8 "b").
    split_and!; [by_evaluation..|done].
  - apply (C4_not_single_trace_passes_through (λ _ _, 0%N) 0 (leavesProcessor ["A"]) []).
    by left.
Defined.

(** ** Removal and compaction *)

Lemma RemoveIf_spans ids l :
  RemoveIf (removeSpan ids) l = filter (λ s, marked ids (SpanID s) = false) l.
Proof.
  induction l as [|s l IH]; [done|]. simpl. rewrite filter_cons, IH.
  fold (marked ids (SpanID s)). by destruct (marked ids (SpanID s)).
Qed.

Lemma removeInScopeSpans_prune ids ss :
  removeInScopeSpans ids ss
  = (pruneScopeSpans ids ss, bool_decide (Spans (pruneScopeSpans ids ss) = [])).
Proof.
  unfold removeInScopeSpans, pruneScopeSpans. simpl. rewrite RemoveIf_spans.
  f_equal. apply bool_decide_ext, length_zero_iff_nil.
Qed.

Lemma RemoveIf_scopes ids l :
  RemoveIf (removeInScopeSpans ids) l
  = filter (λ ss, Spans ss ≠ []) (pruneScopeSpans ids <$> l).
Proof.
  induction l as [|ss l IH]; [done|]. cbn [RemoveIf].
  rewrite removeInScopeSpans_prune, fmap_cons, filter_cons, IH. cbn [fst snd].
  case_bool_decide as H; [by rewrite decide_False by naive_solver|by rewrite decide_True].
Qed.

Lemma removeInResourceSpans_prune ids rs :
  removeInResourceSpans ids rs
  = (pruneResourceSpans ids rs, bool_decide (ScopeSpans (pruneResourceSpans ids rs) = [])).
Proof.
  unfold removeInResourceSpans, pruneResourceSpans. simpl. rewrite RemoveIf_scopes.
  f_equal. apply bool_decide_ext, length_zero_iff_nil.
Qed.

Lemma removeSpansByIds_compact td ids : removeSpansByIds td ids = compact ids td.
Proof.
  unfold removeSpansByIds, compact.
  induction td as [|rs td IH]; [done|]. cbn [RemoveIf].
  rewrite removeInResourceSpans_prune, fmap_cons, filter_cons, IH. cbn [fst snd].
  case_bool_decide as H; [by rewrite decide_False by naive_solver|by rewrite decide_True].
Qed.

Lemma compact_app ids td1 td2 : compact ids (td1 ++ td2) = compact ids td1 ++ compact ids td2.
Proof. unfold compact. by rewrite fmap_app, filter_app. Qed.

Lemma filter_nil_iff {A} (P : A → Prop) `{!∀ x, Decision (P x)} (l : list A) :
  filter P l = [] ↔ ∀ x, x ∈ l → ¬ P x.
Proof.
  induction l as [|a l IH]; [by split; [intros _ ? ?%elem_of_nil|]|].
  rewrite filter_cons. case_decide as Ha.
  - split; [done|]. intros Hl. destruct (Hl a); [by left|done].
  - rewrite IH. split.
    + intros Hl x [->|?]%elem_of_cons; auto.
    + intros Hl x ?. apply Hl. by right.
Qed.

Lemma pruneResourceSpans_all_marked ids rs :
  (∀ fs, fs ∈ fullSpansOfResource rs → marked ids (idOf fs) = true) →
  ScopeSpans (pruneResourceSpans ids rs) = [].
Proof.
  intros Hall. simpl. apply filter_nil_iff.
  intros ss' (ss & -> & Hss)%list_elem_of_fmap Hne. apply Hne. simpl.
  apply filter_nil_iff. intros s Hs Hm.
  pose proof (Hall (mkFullSpan (Resource rs) (Scope ss) s)) as Hs'.
  unfold idOf in Hs'. simpl in Hs'. rewrite Hs' in Hm; [done|].
  unfold fullSpansOfResource. apply list_elem_of_bind. exists ss. split; [|done].
  unfold fullSpansOfScope. by apply list_elem_of_fmap_2.
Qed.

(** C5: [removeSpansByIds] is the three-level cascade: it removes the marked
    spans, then every scope-grouping that is empty, then every
    resource-grouping that is empty; so no grouping of the output is empty,
    and a resource-grouping all of whose spans are marked disappears from
    the output.  This holds for every to-remove set, in particular for the
    non-empty ones that [processTraces] passes. *)
Theorem C5_compaction (td : list ptrace_ResourceSpans) (idsToRemove : gmap N bool) :
  removeSpansByIds td idsToRemove = compact idsToRemove td
  ∧ (∀ rs, rs ∈ removeSpansByIds td idsToRemove →
       ScopeSpans rs ≠ [] ∧ ∀ ss, ss ∈ ScopeSpans rs → Spans ss ≠ [])
  ∧ (∀ pre rs post, td = pre ++ rs :: post →
       (∀ fs, fs ∈ fullSpansOfResource rs → idsToRemove !! SpanID (span fs) = Some true) →
       removeSpansByIds td idsToRemove
       = removeSpansByIds pre idsToRemove ++ removeSpansByIds post idsToRemove).
Proof.
  split; [apply removeSpansByIds_compact|]. split.
  - intros rs'. rewrite removeSpansByIds_compact. unfold compact.
    intros [Hne (rs & -> & Hrs)%list_elem_of_fmap]%list_elem_of_filter.
    split; [done|]. intros ss [Hss _]%list_elem_of_filter. done.
  - intros pre rs post -> Hall. rewrite !removeSpansByIds_compact.
    rewrite (compact_app _ pre (rs :: post)). f_equal.
    change (rs :: post) with ([rs] ++ post). rewrite compact_app.
    unfold compact at 1. simpl. rewrite filter_cons, decide_False; [done|].
    intros Hne. apply Hne. apply pruneResourceSpans_all_marked.
    intros fs Hfs. unfold marked, idOf. by rewrite (Hall fs Hfs).
Qed.

Lemma C5_compaction_witness :
  removeSpansByIds (chain_AAB ++ chain_AAA ++ chain_AAB) {[ 1%N := true; 2%N := true; 3%N := true ]}
  = [].
Proof.
  destruct (C5_compaction (chain_AAB ++ chain_AAA ++ chain_AAB)
              {[ 1%N := true; 2%N := true; 3%N := true ]}) as (_ & _ & H).
  rewrite (H chain_AAB
             {| Resource := exampleResource;
                ScopeSpans := [ {| Scope := scopeNamed "A";
                                   Spans := [exampleSpan 1 0; exampleSpan 2 1; exampleSpan 3 2] |} ] |}
             chain_AAB).
  - reflexivity.
  - reflexivity.
  - intros fs Hfs. vm_compute in Hfs.
    repeat (apply elem_of_cons in Hfs as [->|Hfs]; [reflexivity|]).
    by apply elem_of_nil in Hfs.
Defined.

(** The spans of the output are the unmarked spans of the input, each
    with the resource and scope it had, in the same order. *)
Lemma fullSpansOfScope_prune ids r ss :
  fullSpansOfScope r (pruneScopeSpans ids ss)
  = filter (λ fs, marked ids (idOf fs) = false) (fullSpansOfScope r ss).
Proof.
  unfold fullSpansOfScope, pruneScopeSpans. simpl.
  induction (Spans ss) as [|s l IH]; [done|].
  rewrite fmap_cons, !filter_cons. unfold idOf at 1. simpl.
  destruct (decide _); by rewrite ?fmap_cons, IH.
Qed.

Lemma fullSpansOfResource_prune ids rs :
  fullSpansOfResource (pruneResourceSpans ids rs)
  = filter (λ fs, marked ids (idOf fs) = false) (fullSpansOfResource rs).
Proof.
  unfold fullSpansOfResource, pruneResourceSpans. simpl.
  induction (ScopeSpans rs) as [|ss l IH]; [done|].
  rewrite fmap_cons, filter_cons, bind_cons, filter_app, <- IH, <- fullSpansOfScope_prune.
  case_decide as Hne; [by rewrite bind_cons|].
  assert (Spans (pruneScopeSpans ids ss) = []) as Hnil by done.
  unfold fullSpansOfScope at 2. by rewrite Hnil.
Qed.

Lemma fullSpansOf_compact ids td :
  fullSpansOf (compact ids td) = filter (λ fs, marked ids (idOf fs) = false) (fullSpansOf td).
Proof.
  unfold fullSpansOf, compact.
  induction td as [|rs td IH]; [done|].
  rewrite fmap_cons, filter_cons, bind_cons, filter_app, <- IH, <- fullSpansOfResource_prune.
  case_decide as Hne; [by rewrite bind_cons|].
  assert (ScopeSpans (pruneResourceSpans ids rs) = []) as Hnil by done.
  unfold fullSpansOfResource at 2. by rewrite Hnil.
Qed.

(** ** Trees: depth, ancestors, subtrees *)

Section tree_facts.
Variable leaves : list string.
Variable T : TraceTreeData.
Hypothesis Hwf : wfTree T.

Lemma depth_is_Some x d : depth T x d → is_Some (fullSpans T !! x).
Proof. by intros [???|????]. Qed.

Lemma depth_functional x d d' : depth T x d → depth T x d' → d = d'.
Proof.
  intros H. revert d'. induction H as [x fs Hx Hp|x fs d Hx Hd IH]; intros d' H'.
  - destruct H' as [|x' fs' d' Hx' Hd']; [done|].
    rewrite Hx in Hx'. injection Hx' as <-.
    apply depth_is_Some in Hd' as [? ?]. congruence.
  - destruct H' as [x' fs' Hx' Hp'|x' fs' d' Hx' Hd'].
    + rewrite Hx in Hx'. injection Hx' as <-.
      apply depth_is_Some in Hd as [? ?]. congruence.
    + rewrite Hx in Hx'. injection Hx' as <-. f_equal. by apply IH.
Qed.

Lemma ancestor_add j i y : ancestor T (j + i) y = ancestor T j y ≫= ancestor T i.
Proof.
  revert y. induction j as [|j IH]; intros y; [done|]. simpl.
  destruct (fullSpans T !! y) as [fs|]; [apply IH|done].
Qed.

Lemma depth_ancestor a d j y :
  depth T a d → ancestor T j y = Some a → depth T y (j + d).
Proof.
  intros Ha. revert y. induction j as [|j IH]; intros y Hy; simpl in *.
  - by injection Hy as ->.
  - destruct (fullSpans T !! y) as [fs|] eqn:E; [|done]. simpl in Hy.
    eapply depth_child; [done|]. by apply IH.
Qed.

Lemma child_ancestor x c : c ∈ children T !!! x → ancestor T 1 c = Some x.
Proof.
  intros (fs & Hfs & Hp)%(wf_children _ Hwf). simpl. rewrite Hfs. simpl. by rewrite Hp.
Qed.

Lemma child_depth x c d : c ∈ children T !!! x → depth T x d → depth T c (S d).
Proof. intros Hc Hd. apply (depth_ancestor x d 1); [done|by apply child_ancestor]. Qed.

Lemma inSubtree_ancestor a y : inSubtree T a y → ∃ j, ancestor T j y = Some a.
Proof.
  induction 1 as [x|x c y Hc Hy [j IH]]; [by exists 0|].
  exists (j + 1). rewrite ancestor_add, IH. simpl. by apply child_ancestor.
Qed.

Lemma inSubtree_depth a y d :
  depth T a d → inSubtree T a y → ∃ j, depth T y (j + d) ∧ ancestor T j y = Some a.
Proof.
  intros Ha [j Hj]%inSubtree_ancestor. exists j. split; [|done]. by eapply depth_ancestor.
Qed.

Lemma inSubtree_trans a b c : inSubtree T a b → inSubtree T b c → inSubtree T a c.
Proof. induction 1; [done|]. intros. eapply inSubtree_child; eauto. Qed.

(** Subtrees of different nodes at the same depth are disjoint. *)
Lemma inSubtree_disjoint a b d y :
  depth T a d → depth T b d → inSubtree T a y → inSubtree T b y → a = b.
Proof.
  intros Ha Hb (i & Hi & Hai)%(inSubtree_depth _ _ d) (j & Hj & Hbj)%(inSubtree_depth _ _ d);
    [|done..].
  assert (i = j) as -> by (pose proof (depth_functional _ _ _ Hi Hj); lia).
  congruence.
Qed.

(** A node is not below one of its children. *)
Lemma inSubtree_child_irrefl x c d :
  depth T x d → c ∈ children T !!! x → ¬ inSubtree T c x.
Proof.
  intros Hx Hc (j & Hj & _)%(inSubtree_depth _ _ (S d)); [|by eapply child_depth].
  pose proof (depth_functional _ _ _ Hx Hj). lia.
Qed.

(** The ancestors of a span of depth [d] are [d + 1] different spans. *)
Lemma depth_chain x d :
  depth T x d →
  ∃ l : list N, length l = S d ∧ NoDup l ∧ ∀ y, y ∈ l → ∃ d', d' ≤ d ∧ depth T y d'.
Proof.
  induction 1 as [x fs Hx Hp|x fs d Hx Hd (l & Hlen & Hnd & Hl)].
  - exists [x]. split_and!; [done|apply NoDup_singleton|].
    intros y ->%list_elem_of_singleton. exists 0. split; [done|by eapply depth_root].
  - exists (x :: l). split_and!; [by rewrite length_cons, Hlen| |].
    + apply NoDup_cons. split; [|done]. intros (d' & Hle & Hd')%Hl.
      assert (depth T x (S d)) as Hx' by by eapply depth_child.
      pose proof (depth_functional _ _ _ Hd' Hx'). lia.
    + intros y [->|Hy]%elem_of_cons.
      * exists (S d). split; [done|by eapply depth_child].
      * destruct (Hl y Hy) as (d' & ? & ?). exists d'. split; [lia|done].
Qed.

(** The depth of a span is below the number of spans. *)
Lemma depth_bound x d : depth T x d → d < size (fullSpans T).
Proof.
  intros (l & Hlen & Hnd & Hl)%depth_chain.
  rewrite <- (size_dom (D:=gset N)), <- (size_list_to_set (C:=gset N) l) in * by done.
  assert (size (list_to_set (C:=gset N) l) ≤ size (dom (fullSpans T))); [|lia].
  apply subseteq_size. intros y Hy%elem_of_list_to_set.
  apply elem_of_dom. destruct (Hl y Hy) as (d' & _ & Hd'). by eapply depth_is_Some.
Qed.

(** The spans that have a depth are those below a root. *)
Lemma depth_inSubtree_root x d :
  depth T x d → ∃ r, r ∈ roots T ∧ inSubtree T r x.
Proof.
  induction 1 as [x fs Hx Hp|x fs d Hx Hd (r & Hr & Hrx)].
  - exists x. split; [|constructor]. apply (wf_roots _ Hwf). by exists fs.
  - exists r. split; [done|]. eapply inSubtree_trans; [done|].
    eapply inSubtree_child; [|constructor]. apply (wf_children _ Hwf). by exists fs.
Qed.

Lemma root_depth r : r ∈ roots T → depth T r 0.
Proof. intros (fs & Hfs & Hp)%(wf_roots _ Hwf). by eapply depth_root. Qed.

Lemma inSubtree_root_depth r x :
  r ∈ roots T → inSubtree T r x → ∃ d, depth T x d.
Proof.
  intros Hr%root_depth (j & Hj & _)%(inSubtree_depth _ _ 0); [|done]. by eexists.
Qed.

Lemma leavesBatch_depth f x :
  is_Some (fullSpans T !! x) →
  leavesBatch T f x = true ↔ ∃ d, depth T x d ∧ d + 2 ≤ f.
Proof.
  revert x. induction f as [|f IH]; intros x [fs Hfs]; simpl.
  - split; [done|]. intros (? & _ & ?). lia.
  - rewrite Hfs. destruct (fullSpans T !! parentOf fs) as [fp|] eqn:Hp.
    + rewrite IH by done. split.
      * intros (d & Hd & Hle). exists (S d). split; [by eapply depth_child|lia].
      * intros (d & Hd & Hle). destruct Hd as [x fs' Hx Hp'|x fs' d Hx Hd].
        -- rewrite Hfs in Hx. injection Hx as <-. congruence.
        -- rewrite Hfs in Hx. injection Hx as <-. exists d. split; [done|lia].
    + destruct f as [|f]; simpl.
      * split; [done|]. intros (? & _ & ?). lia.
      * rewrite Hp. split; [|done]. intros _. exists 0. split; [by eapply depth_root|lia].
Qed.

Lemma leavesBatch_depth_size f x :
  size (fullSpans T) < f → is_Some (fullSpans T !! x) →
  leavesBatch T f x = true ↔ ∃ d, depth T x d.
Proof.
  intros Hf Hx. rewrite leavesBatch_depth by done. split.
  - intros (d & ? & _). by exists d.
  - intros (d & Hd). exists d. split; [done|]. apply depth_bound in Hd. lia.
Qed.
End tree_facts.

(** ** The evaluator *)

Lemma slices_Contains_true s v : slices_Contains s v = true ↔ v ∈ s.
Proof. unfold slices_Contains. by rewrite bool_decide_eq_true. Qed.

Lemma marked_insert m x k : marked (<[x := true]> m) k = true ↔ k = x ∨ marked m k = true.
Proof.
  unfold marked. rewrite lookup_insert. case_decide; simpl; naive_solver.
Qed.

Lemma alltrue_insert m x : alltrue m → alltrue (<[x := true]> m).
Proof.
  intros Hm k v. rewrite lookup_insert. case_decide; [by intros [= <-]|apply Hm].
Qed.

Lemma alltrue_empty : alltrue ∅.
Proof. intros k v. by rewrite lookup_empty. Qed.

Section evaluator_facts.
Variable its : inTraceSamplerProcessor.
Variable T : TraceTreeData.
Hypothesis Hkey : ∀ k fs, fullSpans T !! k = Some fs → idOf fs = k.

Local Abbreviation leaves := (ScopeLeaves (config its)).
Local Abbreviation rec_logged := (getScopeBranchesToUnsampleRec_logged its T).

Lemma rangeChildren_logged_spec f cs cur st r :
  (∀ c st r, c ∈ cs → rec_logged f c st = Some r → recSpec leaves T f c st r) →
  rangeChildren (rec_logged f) cs cur st = Some r →
  loopSpec leaves T f cs cur st r.
Proof.
  revert cur st. induction cs as [|c cs IH]; intros cur st Hrec Hr; simpl in Hr.
  - injection Hr as <-. unfold loopSpec. simpl. split_and!.
    + split; [by intros ->; split; [|intros ? ?%elem_of_nil]|by intros [-> _]].
    + by rewrite app_nil_r.
    + by intros ? ? ?%elem_of_nil.
    + intros k. split; [by left|]. by intros [?|[?%elem_of_nil _]].
    + done.
  - destruct (rec_logged f c st) as [[b1 st1]|] eqn:E1; [|done]. simpl in Hr.
    apply Hrec in E1 as (Hb1 & Hlog1 & Hsub1 & Hm1 & Ht1); [|by left]. simpl in *.
    apply IH in Hr as (Hb & Hlog & Hsub & Hm & Ht); [|intros; apply Hrec; [by right|done]].
    unfold loopSpec. split_and!.
    + rewrite Hb, andb_true_iff, Hb1. split.
      * intros [[-> ?] Hcs]. split; [done|]. intros c' [->|?]%elem_of_cons; auto.
      * intros [-> Hcs]. split_and!; [done|apply Hcs; by left|].
        intros c' ?. apply Hcs. by right.
    + rewrite Hlog, Hlog1, bind_cons. by rewrite app_assoc.
    + intros c' y [->|?]%elem_of_cons; [apply Hsub1|by apply Hsub].
    + intros k. rewrite Hm, Hm1, bind_cons, elem_of_app. naive_solver.
    + auto.
Qed.

Lemma getScopeBranchesToUnsampleRec_logged_spec f x st r :
  rec_logged f x st = Some r → recSpec leaves T f x st r.
Proof.
  revert x st r. induction f as [|f IH]; intros x st r Hr; [done|]. simpl in Hr.
  destruct (fullSpans T !! x) as [fs|] eqn:Hfs; [|done]. simpl in Hr.
  destruct (rangeChildren _ _ _ _) as [[b st2]|] eqn:Hloop; [|done]. simpl in Hr.
  apply rangeChildren_logged_spec in Hloop as (Hb & Hlog & Hsub & Hm & Ht);
    [|intros; by apply IH]. simpl in *.
  rewrite slices_Contains_true in Hb.
  assert (b = true ↔ prunable leaves T x) as Hbx.
  { rewrite Hb. split.
    - intros [Hl Hcs]. constructor; [by exists fs|done].
    - intros Hp. destruct Hp as [x (fs' & Hfs' & Hl) Hcs]. split; [|done]. congruence. }
  assert (∀ y, inSubtree T x y → y ∈ x :: (children T !!! x ≫= preorder T f)) as Hsubx.
  { intros y Hy. destruct Hy as [x|x c y Hc Hy]; [by left|right].
    apply list_elem_of_bind. exists c. split; [by eapply Hsub|done]. }
  pose proof (Hkey _ _ Hfs) as Hid. unfold idOf in Hid.
  destruct b; injection Hr as <-; unfold recSpec; simpl.
  - rewrite Hid. split_and!; [done|by rewrite Hlog, <- app_assoc|done| |].
    + intros k. rewrite marked_insert, Hm, elem_of_cons.
      destruct Hbx as [Hbx _]. specialize (Hbx eq_refl). naive_solver.
    + intros. by apply alltrue_insert, Ht.
  - split_and!; [done|by rewrite Hlog, <- app_assoc|done| |done].
    intros k. rewrite Hm, elem_of_cons.
    assert (¬ prunable leaves T x) by (intros ?%Hbx; done). naive_solver.
Qed.
End evaluator_facts.

(** *** The call log is only a log *)

Section erasure.
Variable its : inTraceSamplerProcessor.
Variable T : TraceTreeData.

Lemma rangeChildren_erase rec rec_l cs cur m log :
  (∀ c m log, rec c m = erase <$> rec_l c (m, log)) →
  rangeChildren rec cs cur m = erase <$> rangeChildren rec_l cs cur (m, log).
Proof.
  intros Hrec. revert cur m log. induction cs as [|c cs IH]; intros cur m log; [done|].
  simpl. rewrite (Hrec c m log).
  destruct (rec_l c (m, log)) as [[b [m' log']]|]; [|done]. simpl. apply IH.
Qed.

Lemma getScopeBranchesToUnsampleRec_erase f x m log :
  getScopeBranchesToUnsampleRec its T f x m
  = erase <$> getScopeBranchesToUnsampleRec_logged its T f x (m, log).
Proof.
  revert x m log. induction f as [|f IH]; intros x m log; [done|]. simpl.
  destruct (fullSpans T !! x) as [fs|]; [|done]. simpl.
  rewrite (rangeChildren_erase _ (getScopeBranchesToUnsampleRec_logged its T f) _ _ _
             (log ++ [x])) by done.
  destruct (rangeChildren _ _ _ _) as [[[] [m' log']]|]; done.
Qed.

Lemma rangeRoots_erase f rs m log :
  rangeRoots its T f rs m = fst <$> rangeRoots_logged its T f rs (m, log).
Proof.
  revert m log. induction rs as [|r rs IH]; intros m log; [done|]. simpl.
  rewrite (getScopeBranchesToUnsampleRec_erase f r m log).
  destruct (getScopeBranchesToUnsampleRec_logged _ _ _ _ _) as [[b [m' log']]|]; [|done].
  simpl. apply IH.
Qed.

Lemma getScopeBranchesToUnsample_erase f :
  getScopeBranchesToUnsample its T f = fst <$> getScopeBranchesToUnsample_logged its T f.
Proof. apply rangeRoots_erase. Qed.
End erasure.

(** *** The call order, the log and termination *)

Lemma preorder_inSubtree T f x y : y ∈ preorder T f x → inSubtree T x y.
Proof.
  revert x. induction f as [|f IH]; intros x; simpl; [by intros ?%elem_of_nil|].
  intros [->|(c & Hy & Hc)%list_elem_of_bind]%elem_of_cons; [constructor|].
  eapply inSubtree_child; [done|]. by apply IH.
Qed.

Section evaluator_on_wf_tree.
Variable its : inTraceSamplerProcessor.
Variable T : TraceTreeData.
Hypothesis Hwf : wfTree T.

Local Abbreviation leaves := (ScopeLeaves (config its)).
Local Abbreviation rec_logged := (getScopeBranchesToUnsampleRec_logged its T).

Lemma preorder_NoDup f x d : depth T x d → NoDup (preorder T f x).
Proof.
  revert x d. induction f as [|f IH]; intros x d Hd; simpl; [constructor|].
  apply NoDup_cons. split.
  - intros (c & Hx & Hc)%list_elem_of_bind. apply preorder_inSubtree in Hx.
    by eapply inSubtree_child_irrefl.
  - apply NoDup_bind; [| |apply (wf_children_NoDup _ Hwf)].
    + intros c1 c2 y Hc1 Hc2 H1%preorder_inSubtree H2%preorder_inSubtree.
      eapply (inSubtree_disjoint T Hwf c1 c2 (S d)); eauto using child_depth.
    + intros c Hc. eapply IH, child_depth; eauto.
Qed.

Lemma rangeChildren_returns {St} (rec : N → St → option (bool * St)) cs cur st :
  (∀ c st, c ∈ cs → is_Some (rec c st)) → is_Some (rangeChildren rec cs cur st).
Proof.
  revert cur st. induction cs as [|c cs IH]; intros cur st Hrec; simpl; [by eexists|].
  destruct (Hrec c st) as [[b st'] ->]; [by left|]. simpl.
  apply IH. intros. apply Hrec. by right.
Qed.

(** A call on a span of depth [d] returns when the fuel covers the levels
    below [d]: the recursion never goes deeper than there are spans. *)
Lemma getScopeBranchesToUnsampleRec_logged_returns f x d st :
  depth T x d → size (fullSpans T) ≤ f + d → is_Some (rec_logged f x st).
Proof.
  revert x d st. induction f as [|f IH]; intros x d st Hd Hf.
  - pose proof (depth_bound T _ _ Hd). simpl in Hf. lia.
  - simpl. destruct (depth_is_Some _ _ _ Hd) as [fs ->]. simpl.
    edestruct (rangeChildren_returns (rec_logged f)) as [[b st'] ->].
    + intros c st' Hc. apply (IH c (S d)); [by eapply child_depth|lia].
    + simpl. destruct b; by eexists.
Qed.

Lemma rangeRoots_logged_spec f rs st st' :
  rangeRoots_logged its T f rs st = Some st' →
  st'.2 = st.2 ++ (rs ≫= preorder T f)
  ∧ (∀ r y, r ∈ rs → inSubtree T r y → y ∈ preorder T f r)
  ∧ (∀ k, marked st'.1 k = true ↔
          marked st.1 k = true ∨ (k ∈ rs ≫= preorder T f ∧ prunable leaves T k))
  ∧ (alltrue st.1 → alltrue st'.1).
Proof.
  revert st. induction rs as [|r rs IH]; intros st Hr; simpl in Hr.
  - injection Hr as <-. split_and!; [by rewrite app_nil_r|by intros ?? ?%elem_of_nil| |done].
    intros k. split; [by left|]. by intros [?|[?%elem_of_nil _]].
  - destruct (rec_logged f r st) as [[b st1]|] eqn:E1; [|done]. simpl in Hr.
    apply getScopeBranchesToUnsampleRec_logged_spec in E1
      as (_ & Hlog1 & Hsub1 & Hm1 & Ht1); [|apply Hwf]. simpl in *.
    apply IH in Hr as (Hlog & Hsub & Hm & Ht). split_and!.
    + rewrite Hlog, Hlog1, ?bind_cons. by rewrite app_assoc.
    + intros r' y [->|?]%elem_of_cons; [apply Hsub1|by apply Hsub].
    + intros k. rewrite Hm, Hm1, ?bind_cons, elem_of_app. naive_solver.
    + auto.
Qed.

Lemma rangeRoots_logged_returns f rs st :
  (∀ r st, r ∈ rs → is_Some (rec_logged f r st)) →
  is_Some (rangeRoots_logged its T f rs st).
Proof.
  revert st. induction rs as [|r rs IH]; intros st Hrec; simpl; [by eexists|].
  destruct (Hrec r st) as [[b st'] ->]; [by left|]. simpl.
  apply IH. intros. apply Hrec. by right.
Qed.

(** The evaluator on a well-formed tree: with fuel for as many levels as
    there are spans it returns; it is called exactly once on every span
    whose chain of parents leaves the batch, and on no other; it marks
    exactly the prunable ones among them. *)
Lemma getScopeBranchesToUnsample_logged_spec f :
  size (fullSpans T) ≤ f →
  ∃ m log,
    getScopeBranchesToUnsample_logged its T f = Some (m, log)
    ∧ alltrue m
    ∧ NoDup log
    ∧ (∀ k, k ∈ log ↔ ∃ d, depth T k d)
    ∧ (∀ k, marked m k = true ↔ (∃ d, depth T k d) ∧ prunable leaves T k).
Proof.
  intros Hf. unfold getScopeBranchesToUnsample_logged.
  destruct (rangeRoots_logged_returns f (roots T) (∅, [])) as [[m log] Hr].
  { intros r st Hr. apply (getScopeBranchesToUnsampleRec_logged_returns f r 0);
      [by apply root_depth|lia]. }
  exists m, log. split; [done|].
  apply rangeRoots_logged_spec in Hr as (Hlog & Hsub & Hm & Ht). simpl in *.
  assert (∀ k, k ∈ log ↔ ∃ d, depth T k d) as Hmem.
  { intros k. rewrite Hlog, list_elem_of_bind. split.
    - intros (r & Hk%preorder_inSubtree & Hr). by eapply inSubtree_root_depth.
    - intros [d (r & Hr & Hk)%depth_inSubtree_root]; [|done]. exists r. auto. }
  split_and!; [apply Ht, alltrue_empty| |done|].
  - rewrite Hlog. apply NoDup_bind; [| |apply (wf_roots_NoDup _ Hwf)].
    + intros r1 r2 y Hr1 Hr2 H1%preorder_inSubtree H2%preorder_inSubtree.
      eapply (inSubtree_disjoint T Hwf r1 r2 0); eauto using root_depth.
    + intros r Hr. eapply preorder_NoDup, root_depth; eauto.
  - intros k. rewrite Hm, <- Hlog, Hmem. unfold marked. rewrite lookup_empty. simpl.
    naive_solver.
Qed.
End evaluator_on_wf_tree.

(** ** The evaluator on the tree of a batch *)

Lemma marked_true m k : marked m k = true ↔ m !! k = Some true.
Proof. unfold marked. destruct (m !! k) as [[]|]; naive_solver. Qed.

Lemma alltrue_size m : alltrue m → (size m = 0 ↔ ∀ k, marked m k = false).
Proof.
  intros Hm. rewrite map_size_empty_iff. split.
  - intros -> k. unfold marked. by rewrite lookup_empty.
  - intros Hk. apply map_eq. intros k. rewrite lookup_empty.
    destruct (m !! k) as [v|] eqn:E; [|done].
    rewrite (Hm k v E) in E. apply marked_true in E. by rewrite Hk in E.
Qed.

Lemma tree_size td :
  uniqueSpanIDs td → size (fullSpans (spansToTraceTree td)) = length (batchIds td).
Proof.
  intros Hu. rewrite <- (size_dom (D:=gset N)), <- (size_list_to_set (C:=gset N)) by done.
  f_equal. apply set_eq. intros k.
  by rewrite elem_of_dom, elem_of_list_to_set, tree_fullSpans_is_Some.
Qed.

Section prunable_subtree.
Variable leaves : list string.
Variable T : TraceTreeData.
Hypothesis Hwf : wfTree T.

Lemma prunable_inSubtree x y :
  prunable leaves T x → inSubtree T x y → leafScoped leaves T y.
Proof.
  intros Hx Hy. induction Hy as [x|x c y Hc Hy IH]; destruct Hx as [x Hl Hcs]; auto.
Qed.

Lemma inSubtree_prunable n x d :
  depth T x d → size (fullSpans T) ≤ n + d →
  (∀ y, inSubtree T x y → leafScoped leaves T y) → prunable leaves T x.
Proof.
  revert x d. induction n as [|n IH]; intros x d Hd Hn Hsub.
  - pose proof (depth_bound T _ _ Hd). simpl in Hn. lia.
  - constructor; [apply Hsub; constructor|].
    intros c Hc. apply (IH c (S d)); [by eapply child_depth|lia|].
    intros y Hy. apply Hsub. by eapply inSubtree_child.
Qed.

(** On a span whose chain of parents leaves the batch, [isPrunable] says
    that the whole subtree carries leaf scopes. *)
Lemma prunable_iff_subtree x d :
  depth T x d →
  prunable leaves T x ↔ ∀ y, inSubtree T x y → leafScoped leaves T y.
Proof.
  intros Hd. split; [intros; by eapply prunable_inSubtree|].
  apply (inSubtree_prunable (size (fullSpans T)) x d); [done|lia].
Qed.
End prunable_subtree.

Lemma acyclicParents_depth td k :
  uniqueSpanIDs td → acyclicParents td → k ∈ batchIds td →
  ∃ d, depth (spansToTraceTree td) k d.
Proof.
  intros Hu Ha Hk. unfold acyclicParents in Ha. rewrite Forall_forall in Ha.
  apply (leavesBatch_depth_size _ (S (length (batchIds td)))).
  - rewrite tree_size by done. lia.
  - by apply tree_fullSpans_is_Some.
  - by apply Ha.
Qed.

(** The to-remove set of a batch with unique span identities. *)
Lemma getScopeBranchesToUnsample_batch its td fuel :
  uniqueSpanIDs td → length (batchIds td) ≤ fuel →
  ∃ m log,
    getScopeBranchesToUnsample_logged its (spansToTraceTree td) fuel = Some (m, log)
    ∧ getScopeBranchesToUnsample its (spansToTraceTree td) fuel = Some m
    ∧ alltrue m
    ∧ NoDup log
    ∧ (∀ k, k ∈ log ↔ ∃ d, depth (spansToTraceTree td) k d)
    ∧ (∀ k, m !! k = Some true ↔
            (∃ d, depth (spansToTraceTree td) k d)
            ∧ prunable (ScopeLeaves (config its)) (spansToTraceTree td) k).
Proof.
  intros Hu Hf.
  destruct (getScopeBranchesToUnsample_logged_spec its (spansToTraceTree td)
              (spansToTraceTree_wf td Hu) fuel) as (m & log & Hr & Ht & Hnd & Hlog & Hm).
  { rewrite tree_size by done. lia. }
  exists m, log. split_and!; [done| |done..|].
  - by rewrite getScopeBranchesToUnsample_erase, Hr.
  - intros k. by rewrite <- marked_true, Hm.
Qed.

Lemma callsOn_NoDup log k :
  NoDup log → callsOn log k = if decide (k ∈ log) then 1 else 0.
Proof.
  unfold callsOn. induction 1 as [|y l Hy Hl IH]; [done|].
  rewrite filter_cons. destruct (decide (y = k)) as [->|Hne].
  - rewrite decide_True by left. simpl. rewrite IH. by rewrite decide_False.
  - rewrite IH. destruct (decide (k ∈ l)).
    + by rewrite decide_True by by right.
    + rewrite decide_False; [done|]. by intros [->|?]%elem_of_cons.
Qed.

(** C7, as the code has it: on every batch with unique span identities,
    cyclic or not, the evaluator returns, and the recursion is never
    deeper than the number of spans.  It is called once on every span
    whose chain of parents leaves the batch and never on a span whose
    chain of parents runs into a cycle (such a span is below no root); on
    a batch with acyclic parent references it is called exactly once on
    every span. *)
Theorem C7_evaluator_terminates (its : inTraceSamplerProcessor)
    (td : list ptrace_ResourceSpans) (fuel : nat) :
  uniqueSpanIDs td → length (batchIds td) ≤ fuel →
  ∃ m log,
    getScopeBranchesToUnsample_logged its (spansToTraceTree td) fuel = Some (m, log)
    ∧ getScopeBranchesToUnsample its (spansToTraceTree td) fuel = Some m
    ∧ (∀ k, k ∈ batchIds td →
         callsOn log k
         = if leavesBatch (spansToTraceTree td) (S (length (batchIds td))) k then 1 else 0)
    ∧ (∀ k, k ∉ batchIds td → callsOn log k = 0)
    ∧ (acyclicParents td → ∀ k, k ∈ batchIds td → callsOn log k = 1).
Proof.
  intros Hu Hf.
  destruct (getScopeBranchesToUnsample_batch its td fuel Hu Hf)
    as (m & log & Hr & Hr' & _ & Hnd & Hlog & _).
  exists m, log. split; [done|]. split; [done|].
  assert (∀ k, k ∈ batchIds td →
            leavesBatch (spansToTraceTree td) (S (length (batchIds td))) k = true
            ↔ k ∈ log) as Hleave.
  { intros k Hk. rewrite Hlog. apply leavesBatch_depth_size.
    - rewrite tree_size by done. lia.
    - by apply tree_fullSpans_is_Some. }
  split_and!.
  - intros k Hk. rewrite callsOn_NoDup by done. specialize (Hleave k Hk).
    destruct (leavesBatch _ _ _).
    + rewrite decide_True; [done|]. by apply Hleave.
    + rewrite decide_False; [done|]. intros ?%Hleave. done.
  - intros k Hk. rewrite callsOn_NoDup, decide_False; [done| |done].
    intros [d Hd%depth_is_Some]%Hlog. by apply tree_fullSpans_is_Some in Hd.
  - intros Ha k Hk. rewrite callsOn_NoDup, decide_True; [done| |done].
    apply Hlog. by apply acyclicParents_depth.
Qed.

Lemma C7_evaluator_terminates_witness :
  ∃ m log,
    getScopeBranchesToUnsample_logged (leavesProcessor ["A"]) (spansToTraceTree cycle_batch) 3
      = Some (m, log)
    ∧ callsOn log 3 = 1 ∧ callsOn log 1 = 0 ∧ callsOn log 2 = 0.
Proof.
  assert (uniqueSpanIDs cycle_batch) as Hu by by_evaluation.
  assert (length (batchIds cycle_batch) ≤ 3) as Hf by (vm_compute; lia).
  destruct (C7_evaluator_terminates (leavesProcessor ["A"]) cycle_batch 3 Hu Hf)
    as (m & log & Hr & _ & Hin & _ & _).
  exists m, log. split; [exact Hr|].
  split_and!; (rewrite Hin; [reflexivity|by_evaluation]).
Defined.

(** C7 fails as stated: the only span of [self_parent_batch] is its own
    parent, so the batch has no root and the evaluator is never called on
    the span, whatever the fuel. *)
Lemma C7_counterexample :
  uniqueSpanIDs self_parent_batch
  ∧ ¬ ∃ fuel m log,
        getScopeBranchesToUnsample_logged (leavesProcessor ["A"])
          (spansToTraceTree self_parent_batch) fuel = Some (m, log)
        ∧ ∀ k, k ∈ batchIds self_parent_batch → callsOn log k = 1.
Proof.
  split; [by_evaluation|].
  intros (fuel & m & log & Hr & Hk).
  unfold getScopeBranchesToUnsample_logged in Hr.
  replace (roots (spansToTraceTree self_parent_batch)) with (@nil N) in Hr by by vm_compute.
  simpl in Hr. injection Hr as <- <-.
  specialize (Hk 1%N). discriminate Hk. by_evaluation.
Qed.

(** ** processTraces on the pruning path *)

Lemma sampled_zero_rate hash its t : scaledSamplingRate its = 0%N → sampled hash its t = false.
Proof. intros H. unfold sampled. rewrite H. apply bool_decide_eq_false. lia. Qed.

Lemma processTraces_pruning hash fuel its td t :
  getSingleTraceId td = Some t → sampled hash its t = false →
  processTraces hash fuel its td
  = m ← getScopeBranchesToUnsample its (spansToTraceTree td) fuel;
    Some (if bool_decide (size m = 0) then (td, [])
          else (removeSpansByIds td m, [Debug "unsampling spans in a trace" (size m)])).
Proof.
  intros H1 H2. unfold processTraces. rewrite H1, H2.
  destruct (getScopeBranchesToUnsample _ _ _) as [m|]; [|done]. simpl. by case_bool_decide.
Qed.

(** C1: on a single-trace batch that the sampling decision does not
    accept, with unique span identities and acyclic parent references,
    [processTraces] computes a to-remove set [m] in which a span is marked
    if and only if its own scope name is one of [ScopeLeaves] and so is the
    scope name of every span reachable from it through the children
    mapping; a span without children is marked iff its own scope name is
    one of [ScopeLeaves].  With [ScopeLeaves = ["A"]] the chain
    root(A) -> child(A) -> grandchild(B) is returned whole and the chain
    root(A) -> child(A) -> grandchild(A) loses its three spans. *)
Theorem C1_marked_iff_subtree_of_leaves (hash : N → N → N)
    (its : inTraceSamplerProcessor) (td : list ptrace_ResourceSpans)
    (t : N) (fuel : nat) :
  getSingleTraceId td = Some t → sampled hash its t = false →
  uniqueSpanIDs td → acyclicParents td →
  length (batchIds td) ≤ fuel →
  (∃ m,
      getScopeBranchesToUnsample its (spansToTraceTree td) fuel = Some m
      ∧ processTraces hash fuel its td
        = Some (if bool_decide (size m = 0) then (td, [])
                else (removeSpansByIds td m, [Debug "unsampling spans in a trace" (size m)]))
      ∧ (∀ k, k ∈ batchIds td →
           m !! k = Some true ↔
           leafScoped (ScopeLeaves (config its)) (spansToTraceTree td) k
           ∧ ∀ y, inSubtree (spansToTraceTree td) k y →
                  leafScoped (ScopeLeaves (config its)) (spansToTraceTree td) y)
      ∧ (∀ k, k ∈ batchIds td → children (spansToTraceTree td) !!! k = [] →
           m !! k = Some true ↔
           leafScoped (ScopeLeaves (config its)) (spansToTraceTree td) k))
  ∧ processTraces hash 3 (leavesProcessor ["A"]) chain_AAB = Some (chain_AAB, [])
  ∧ processTraces hash 3 (leavesProcessor ["A"]) chain_AAA
    = Some ([], [Debug "unsampling spans in a trace" 3]).
Proof.
  intros Hsingle Hsampled Hu Ha Hf.
  split; [|split; by rewrite (processTraces_pruning _ _ _ _ 7%N)
                       by (done || by apply sampled_zero_rate)].
  destruct (getScopeBranchesToUnsample_batch its td fuel Hu Hf)
    as (m & log & _ & Hr & _ & _ & _ & Hm).
  pose proof (spansToTraceTree_wf td Hu) as Hwf.
  assert (∀ k, k ∈ batchIds td →
            m !! k = Some true ↔
            ∀ y, inSubtree (spansToTraceTree td) k y →
                 leafScoped (ScopeLeaves (config its)) (spansToTraceTree td) y) as Hsub.
  { intros k Hk. destruct (acyclicParents_depth td k Hu Ha Hk) as [d Hd].
    rewrite Hm, <- (prunable_iff_subtree _ _ Hwf k d Hd). naive_solver. }
  exists m. split_and!; [done| | |].
  - by rewrite (processTraces_pruning _ _ _ _ t), Hr by done.
  - intros k Hk. rewrite (Hsub k Hk). split; [|by intros [_ ?]].
    intros Hy. split; [apply Hy; constructor|done].
  - intros k Hk Hnil. rewrite (Hsub k Hk). split; [intros Hy; apply Hy; constructor|].
    intros Hl y Hy. destruct Hy as [x|x c y Hc Hy]; [done|].
    rewrite Hnil in Hc. by apply elem_of_nil in Hc.
Qed.

Lemma C1_marked_iff_subtree_of_leaves_witness :
  ∃ m,
    getScopeBranchesToUnsample (leavesProcessor ["A"; "B"]) (spansToTraceTree chain_AAB) 3
      = Some m
    ∧ (m !! 3%N = Some true ↔
       leafScoped ["A"; "B"] (spansToTraceTree chain_AAB) 3).
Proof.
  assert (getSingleTraceId chain_AAB = Some 7%N) as H1 by reflexivity.
  assert (sampled (λ _ _, 5%N) (leavesProcessor ["A"; "B"]) 7 = false) as H2 by reflexivity.
  assert (uniqueSpanIDs chain_AAB) as H3 by by_evaluation.
  assert (acyclicParents chain_AAB) as H4 by by_evaluation.
  assert (length (batchIds chain_AAB) ≤ 3) as H5 by (vm_compute; lia).
  destruct (C1_marked_iff_subtree_of_leaves (λ _ _, 5%N) (leavesProcessor ["A"; "B"])
              chain_AAB 7 3 H1 H2 H3 H4 H5) as [(m & Hm & _ & _ & Hleaf) _].
  exists m. split; [exact Hm|]. apply Hleaf; [by_evaluation|reflexivity].
Defined.

(** ** Pruning a pruned batch *)

Section pruned_batch.
Variable its : inTraceSamplerProcessor.
Variable td : list ptrace_ResourceSpans.
Variable m : gmap N bool.
Hypothesis Hu : uniqueSpanIDs td.
Hypothesis Hm : ∀ k, m !! k = Some true ↔
  (∃ d, depth (spansToTraceTree td) k d)
  ∧ prunable (ScopeLeaves (config its)) (spansToTraceTree td) k.

Local Abbreviation leaves := (ScopeLeaves (config its)).
Local Abbreviation T := (spansToTraceTree td).
Local Abbreviation T' := (spansToTraceTree (compact m td)).

Lemma batchIds_compact :
  batchIds (compact m td) = filter (λ k, marked m k = false) (batchIds td).
Proof.
  unfold batchIds. rewrite fullSpansOf_compact.
  induction (fullSpansOf td) as [|fs l IH]; [done|].
  rewrite fmap_cons, !filter_cons. destruct (decide _); by rewrite ?fmap_cons, IH.
Qed.

Lemma compact_unique : uniqueSpanIDs (compact m td).
Proof.
  unfold uniqueSpanIDs. rewrite batchIds_compact.
  eapply sublist_NoDup; [exact Hu|apply sublist_filter].
Qed.

Lemma compact_length : length (batchIds (compact m td)) ≤ length (batchIds td).
Proof. rewrite batchIds_compact. apply sublist_length, sublist_filter. Qed.

Lemma compact_fullSpans k fs :
  fullSpans T' !! k = Some fs ↔ fullSpans T !! k = Some fs ∧ marked m k = false.
Proof.
  split.
  - intros [<- Hin]%tree_fullSpans_Some. rewrite fullSpansOf_compact in Hin.
    apply list_elem_of_filter in Hin as [Hk Hin]. split; [|done].
    by apply tree_fullSpans_unique.
  - intros [[<- Hin]%tree_fullSpans_Some Hk].
    apply tree_fullSpans_unique; [apply compact_unique|].
    rewrite fullSpansOf_compact. by apply list_elem_of_filter.
Qed.

Lemma compact_children p c :
  c ∈ children T' !!! p ↔ c ∈ children T !!! p ∧ marked m c = false.
Proof.
  rewrite (wf_children _ (spansToTraceTree_wf _ compact_unique)),
    (wf_children _ (spansToTraceTree_wf _ Hu)).
  setoid_rewrite compact_fullSpans. naive_solver.
Qed.

Lemma compact_depth k d' : depth T' k d' → ∃ d, depth T k d.
Proof.
  induction 1 as [k fs Hk Hp|k fs d' Hk Hd [d IH]].
  - apply compact_fullSpans in Hk as [Hk Hun].
    destruct (fullSpans T !! parentOf fs) as [fp|] eqn:Hfp.
    + assert (marked m (parentOf fs) = true) as Hmp.
      { destruct (marked m (parentOf fs)) eqn:E; [done|].
        assert (fullSpans T' !! parentOf fs = Some fp) by by apply compact_fullSpans.
        congruence. }
      apply marked_true, Hm in Hmp as [[d Hd] _]. exists (S d). by eapply depth_child.
    + exists 0. by eapply depth_root.
  - apply compact_fullSpans in Hk as [Hk Hun]. exists (S d). by eapply depth_child.
Qed.

Lemma compact_prunable k :
  prunable leaves T' k → ∀ d, depth T k d → prunable leaves T k.
Proof.
  induction 1 as [k (fs & Hk & Hl) Hcs IH]. intros d Hd.
  apply compact_fullSpans in Hk as [Hk Hun].
  constructor; [by exists fs|]. intros c Hc.
  assert (depth T c (S d)) as Hdc.
  { eapply child_depth; eauto. by apply spansToTraceTree_wf. }
  destruct (marked m c) eqn:E.
  - by apply marked_true, Hm in E as [_ ?].
  - eapply (IH c); [by apply compact_children|done].
Qed.

(** No span of the pruned batch is marked when it is evaluated again. *)
Lemma compact_nothing_prunable k d' :
  depth T' k d' → ¬ prunable leaves T' k.
Proof.
  intros Hd' Hp. destruct (compact_depth _ _ Hd') as [d Hd].
  pose proof (compact_prunable _ Hp _ Hd) as Hp'.
  destruct (depth_is_Some _ _ _ Hd') as [fs [_ Hun]%compact_fullSpans].
  assert (marked m k = true) as E; [|congruence].
  apply marked_true, Hm. eauto.
Qed.
End pruned_batch.

Lemma alltrue_unmarked_empty m : alltrue m → (∀ k, m !! k ≠ Some true) → m = ∅.
Proof.
  intros Ht Hk. apply map_size_empty_iff, alltrue_size; [done|].
  intros k. destruct (marked m k) eqn:E; [|done]. by apply marked_true, Hk in E.
Qed.

(** Evaluating the pruned batch marks nothing. *)
Lemma getScopeBranchesToUnsample_pruned its td fuel fuel' m :
  uniqueSpanIDs td → length (batchIds td) ≤ fuel → length (batchIds td) ≤ fuel' →
  getScopeBranchesToUnsample its (spansToTraceTree td) fuel = Some m →
  getScopeBranchesToUnsample its (spansToTraceTree td) fuel' = Some m
  ∧ getScopeBranchesToUnsample its (spansToTraceTree (compact m td)) fuel' = Some ∅.
Proof.
  intros Hu Hf Hf' Hr.
  destruct (getScopeBranchesToUnsample_batch its td fuel Hu Hf)
    as (m0 & _ & _ & Hr0 & Ht & _ & _ & Hm).
  rewrite Hr in Hr0. injection Hr0 as <-. split.
  - destruct (getScopeBranchesToUnsample_batch its td fuel' Hu Hf')
      as (m1 & _ & _ & Hr1 & Ht1 & _ & _ & Hm1).
    rewrite Hr1. f_equal. apply map_eq. intros k.
    destruct (m !! k) as [v|] eqn:E, (m1 !! k) as [v1|] eqn:E1; [| | |done].
    + by rewrite (Ht _ _ E), (Ht1 _ _ E1).
    + rewrite (Ht _ _ E) in E. apply Hm, Hm1 in E. congruence.
    + rewrite (Ht1 _ _ E1) in E1. apply Hm1, Hm in E1. congruence.
  - pose proof (compact_unique td m Hu) as Hu'.
    destruct (getScopeBranchesToUnsample_batch its (compact m td) fuel' Hu')
      as (m' & _ & _ & Hr' & Ht' & _ & _ & Hm').
    { pose proof (compact_length td m). lia. }
    rewrite Hr'. f_equal. apply alltrue_unmarked_empty; [done|].
    intros k [[d' Hd'] Hp]%Hm'.
    exact (compact_nothing_prunable its td m Hu Hm k d' Hd' Hp).
Qed.

Lemma getSingleTraceId_compact td m t t' :
  getSingleTraceId td = Some t → getSingleTraceId (compact m td) = Some t' → t' = t.
Proof.
  intros [_ Hall]%getSingleTraceId_Some [Hne Hall']%getSingleTraceId_Some.
  unfold spansOf in *. rewrite fullSpansOf_compact in *.
  destruct (filter _ _) as [|fs l] eqn:E; [done|].
  assert (fs ∈ filter (λ fs, marked m (idOf fs) = false) (fullSpansOf td)) as Hin
    by (rewrite E; left).
  apply list_elem_of_filter in Hin as [_ Hin].
  rewrite <- (Hall (span fs)) by by apply list_elem_of_fmap_2.
  symmetry. apply Hall'. left.
Qed.

(** C6: on a batch with unique span identities (acyclic or not, of one
    trace or not) the pruning transform applied to its own output marks no
    span and returns that output unchanged; so does [processTraces] as a
    whole. *)
Theorem C6_pruning_idempotent (hash : N → N → N) (its : inTraceSamplerProcessor)
    (td : list ptrace_ResourceSpans) (fuel fuel' : nat) :
  uniqueSpanIDs td → length (batchIds td) ≤ fuel → length (batchIds td) ≤ fuel' →
  (∃ td',
      pruneTraces fuel its td = Some td'
      ∧ getScopeBranchesToUnsample its (spansToTraceTree td') fuel' = Some ∅
      ∧ pruneTraces fuel' its td' = Some td')
  ∧ (∃ td' log log',
      processTraces hash fuel its td = Some (td', log)
      ∧ processTraces hash fuel' its td' = Some (td', log')).
Proof.
  intros Hu Hf Hf'.
  destruct (getScopeBranchesToUnsample_batch its td fuel Hu Hf)
    as (m & _ & _ & Hr & Ht & _ & _ & Hm).
  destruct (getScopeBranchesToUnsample_pruned its td fuel fuel' m Hu Hf Hf' Hr) as [Hr1 Hr2].
  assert (∃ td',
      pruneTraces fuel its td = Some td'
      ∧ getScopeBranchesToUnsample its (spansToTraceTree td') fuel' = Some ∅
      ∧ pruneTraces fuel' its td' = Some td'
      ∧ (td' = td ∨ td' = compact m td)) as (td' & Hp & Hr' & Hp' & Htd').
  { unfold pruneTraces. rewrite Hr. simpl. case_bool_decide as Hsz.
    - exists td. apply map_size_empty_iff in Hsz. subst m.
      rewrite Hr1. simpl. auto.
    - exists (removeSpansByIds td m). rewrite removeSpansByIds_compact, Hr2. simpl. auto. }
  split; [by exists td'|].
  destruct (getSingleTraceId td) as [t|] eqn:Hs.
  2:{ exists td, [warnDifferentTraces], [warnDifferentTraces].
      unfold processTraces. by rewrite Hs. }
  destruct (sampled hash its t) eqn:Hsam.
  { exists td, [], []. unfold processTraces. by rewrite Hs, Hsam. }
  unfold pruneTraces in Hp. rewrite Hr in Hp. simpl in Hp.
  rewrite (processTraces_pruning hash fuel its td t Hs Hsam), Hr. simpl.
  case_bool_decide as Hsz; injection Hp as <-.
  - exists td, [], []. split; [done|].
    rewrite (processTraces_pruning hash fuel' its td t Hs Hsam), Hr'. done.
  - eexists _, _. rewrite removeSpansByIds_compact in *.
    destruct (getSingleTraceId (compact m td)) as [t'|] eqn:Hs'.
    + assert (t' = t) as -> by by eapply getSingleTraceId_compact.
      exists []. split; [done|].
      rewrite (processTraces_pruning hash fuel' its _ t Hs' Hsam), Hr'. done.
    + exists [warnDifferentTraces]. split; [done|].
      unfold processTraces. by rewrite Hs'.
Qed.

Lemma C6_pruning_idempotent_witness :
  ∃ td',
    pruneTraces 3 (leavesProcessor ["B"]) chain_AAB = Some td'
    ∧ getScopeBranchesToUnsample (leavesProcessor ["B"]) (spansToTraceTree td') 3 = Some ∅
    ∧ pruneTraces 3 (leavesProcessor ["B"]) td' = Some td'.
Proof.
  assert (uniqueSpanIDs chain_AAB) as Hu by by_evaluation.
  assert (length (batchIds chain_AAB) ≤ 3) as Hf by (vm_compute; lia).
  exact (proj1 (C6_pruning_idempotent (λ _ _, 0%N) (leavesProcessor ["B"]) chain_AAB 3 3
                  Hu Hf Hf)).
Defined.

(** ** The output of processTraces *)





Lemma processTraces_returns hash its td fuel :
  uniqueSpanIDs td → length (batchIds td) ≤ fuel →
  is_Some (processTraces hash fuel its td).
Proof.
  intros Hu Hf. unfold processTraces.
  destruct (getSingleTraceId td) as [t|]; [|by eexists].
  destruct (sampled hash its t); [by eexists|].
  destruct (getScopeBranchesToUnsample_batch its td fuel Hu Hf)
    as (m & _ & _ & -> & _). simpl. case_bool_decide; by eexists.
Qed.

Lemma prunable_leafScoped leaves T x : prunable leaves T x → leafScoped leaves T x.
Proof. by intros [? ? ?]. Qed.

Lemma rangeRoots_logged_keys its T f rs st st' :
  (∀ k fs, fullSpans T !! k = Some fs → idOf fs = k) →
  rangeRoots_logged its T f rs st = Some st' →
  (∀ k, marked st'.1 k = true →
        marked st.1 k = true ∨ prunable (ScopeLeaves (config its)) T k)
  ∧ (alltrue st.1 → alltrue st'.1).
Proof.
  intros Hkey. revert st. induction rs as [|r rs IH]; intros st Hr; simpl in Hr.
  - injection Hr as <-. auto.
  - destruct (getScopeBranchesToUnsampleRec_logged its T f r st) as [[b st1]|] eqn:E1; [|done].
    simpl in Hr.
    apply getScopeBranchesToUnsampleRec_logged_spec in E1 as (_ & _ & _ & Hm1 & Ht1); [|done].
    apply IH in Hr as [Hm Ht]. simpl in *. split; [|auto].
    intros k [Hk|Hk]%Hm; [|by right]. apply Hm1 in Hk. naive_solver.
Qed.

Lemma getScopeBranchesToUnsample_keys its td fuel m :
  getScopeBranchesToUnsample its (spansToTraceTree td) fuel = Some m →
  ∀ k v, m !! k = Some v →
    v = true
    ∧ k ∈ batchIds td
    ∧ ∃ fs, fullSpans (spansToTraceTree td) !! k = Some fs
            ∧ Name (scope fs) ∈ ScopeLeaves (config its).
Proof.
  intros Hr k v Hk.
  rewrite (getScopeBranchesToUnsample_erase its _ fuel) in Hr.
  unfold getScopeBranchesToUnsample_logged in Hr.
  destruct (rangeRoots_logged _ _ _ _ _) as [st'|] eqn:E; [|done]. injection Hr as <-.
  apply rangeRoots_logged_keys in E as [Hm Ht];
    [|intros k' fs Hfs; by apply tree_fullSpans_Some in Hfs as [? _]].
  simpl in *. assert (v = true) as -> by by apply (Ht alltrue_empty k). split; [done|].
  apply marked_true, Hm in Hk as [Hk|(fs & Hfs & Hl)%prunable_leafScoped].
  { unfold marked in Hk. by rewrite lookup_empty in Hk. }
  split; [|by exists fs]. apply tree_fullSpans_is_Some. by exists fs.
Qed.




(** C10, as the code has it: on every batch, whenever [processTraces]
    returns, the output is the input or the input compacted by the
    to-remove set of the evaluator, so the spans of the output are spans
    of the input, unchanged, under the resource and scope they had and in
    the order they had; and a span is in the output whenever the entry
    that [fullSpans] holds for its identity (the last span of the batch
    with that identity) sits under a scope that is not one of
    [ScopeLeaves].  On a batch with unique span identities
    [processTraces] returns and every span whose own scope name is not
    one of [ScopeLeaves] is in the output. *)
Theorem C10_only_leaf_scoped_spans_removed (hash : N → N → N)
    (its : inTraceSamplerProcessor) (td : list ptrace_ResourceSpans) (fuel : nat) :
  (∀ out log, processTraces hash fuel its td = Some (out, log) →
     (out = td
      ∨ ∃ m, getScopeBranchesToUnsample its (spansToTraceTree td) fuel = Some m
             ∧ out = compact m td)
     ∧ fullSpansOf out `sublist_of` fullSpansOf td
     ∧ (∀ fs fs', fs ∈ fullSpansOf td →
          fullSpans (spansToTraceTree td) !! SpanID (span fs) = Some fs' →
          Name (scope fs') ∉ ScopeLeaves (config its) → fs ∈ fullSpansOf out))
  ∧ (uniqueSpanIDs td → length (batchIds td) ≤ fuel →
     ∃ out log,
       processTraces hash fuel its td = Some (out, log)
       ∧ ∀ fs, fs ∈ fullSpansOf td →
               Name (scope fs) ∉ ScopeLeaves (config its) → fs ∈ fullSpansOf out).
Proof.
  assert (∀ out log, processTraces hash fuel its td = Some (out, log) →
     (out = td
      ∨ ∃ m, getScopeBranchesToUnsample its (spansToTraceTree td) fuel = Some m
             ∧ out = compact m td)
     ∧ fullSpansOf out `sublist_of` fullSpansOf td
     ∧ (∀ fs fs', fs ∈ fullSpansOf td →
          fullSpans (spansToTraceTree td) !! SpanID (span fs) = Some fs' →
          Name (scope fs') ∉ ScopeLeaves (config its) → fs ∈ fullSpansOf out)) as Hframe.
  { intros out log. unfold processTraces.
    destruct (getSingleTraceId td) as [t|]; [|intros [= <- _]; split_and!; auto].
    destruct (sampled hash its t); [intros [= <- _]; split_and!; auto|].
    destruct (getScopeBranchesToUnsample _ _ _) as [m|] eqn:Hr; [|done]. simpl.
    case_bool_decide as Hsz; intros [= <- _]; [split_and!; auto|].
    rewrite removeSpansByIds_compact, fullSpansOf_compact.
    split_and!; [eauto|apply sublist_filter|].
    intros fs fs' Hin Hfs' Hscope. apply list_elem_of_filter. split; [|done].
    destruct (marked m (idOf fs)) eqn:E; [|done]. apply marked_true in E.
    destruct (getScopeBranchesToUnsample_keys its td fuel m Hr _ _ E)
      as (_ & _ & fs'' & Hfs'' & Hl).
    pose proof (eq_trans (eq_sym Hfs') Hfs'') as Heq. by injection Heq as ->. }
  split; [done|]. intros Hu Hf.
  destruct (processTraces_returns hash its td fuel Hu Hf) as [[out log] Hr].
  exists out, log. split; [done|]. intros fs Hin Hscope.
  destruct (Hframe out log Hr) as (_ & _ & Hkept).
  apply (Hkept fs fs); [done| |done]. by apply tree_fullSpans_unique.
Qed.

Lemma C10_only_leaf_scoped_spans_removed_witness :
  ∃ out log,
    processTraces (λ _ _, 0%N) 3 (leavesProcessor ["B"]) chain_AAB = Some (out, log)
    ∧ (mkFullSpan exampleResource (scopeNamed "A") (exampleSpan 2 1)) ∈ fullSpansOf out.
Proof.
  assert (uniqueSpanIDs chain_AAB) as Hu by by_evaluation.
  assert (length (batchIds chain_AAB) ≤ 3) as Hf by (vm_compute; lia).
  destruct (proj2 (C10_only_leaf_scoped_spans_removed (λ _ _, 0%N) (leavesProcessor ["B"])
                     chain_AAB 3) Hu Hf) as (out & log & Hr & Hkept).
  exists out, log. split; [exact Hr|]. apply Hkept; by_evaluation.
Defined.

(** C10 fails as stated: in [duplicate_id_batch] the span under scope
    "keep" shares its identity with a span under the leaf scope "drop";
    the identity is marked and both spans are removed. *)
Lemma C10_counterexample :
  (∀ hash, processTraces hash 1 (leavesProcessor ["drop"]) duplicate_id_batch
           = Some ([], [Debug "unsampling spans in a trace" 1]))
  ∧ (mkFullSpan exampleResource (scopeNamed "keep") (exampleSpan 1 0))
      ∈ fullSpansOf duplicate_id_batch
  ∧ ("keep" ∉ ScopeLeaves (config (leavesProcessor ["drop"])))
  ∧ (mkFullSpan exampleResource (scopeNamed "keep") (exampleSpan 1 0))
      ∉ fullSpansOf ([] : list ptrace_ResourceSpans).
Proof.
  split_and!; [|by_evaluation..].
  intros hash.
  by rewrite (processTraces_pruning _ _ _ _ 7%N) by (done || by apply sampled_zero_rate).
Qed.

(** ** The scaled sampling rate *)

Section scaled_rate.
Local Open Scope Z_scope.

Lemma div_between (M S N : Z) : 0 < S → N * S ≤ M < (N + 1) * S → M / S = N.
Proof. intros HS HM. symmetry. apply (Z.div_unique M S N (M - N * S)); lia. Qed.

(** Rounding to nearest, then discarding [log2 S] bits, gives [N] when the
    exact quotient lies between [N S - 1/2] (included: [N S] is even) and
    [(N + 1) S - 1/2] (excluded). *)
Lemma round_half_even_div (n d S' N : Z) :
  0 < d → 0 ≤ n → 0 < S' → 0 ≤ N →
  (2 * (N * (2 * S')) - 1) * d ≤ 2 * n →
  2 * n < (2 * ((N + 1) * (2 * S')) - 1) * d →
  round_half_even n d / (2 * S') = N.
Proof.
  intros Hd Hn HS HN Hlo Hhi. apply div_between; [lia|].
  unfold round_half_even.
  pose proof (Z.div_mod n d ltac:(lia)) as Hdm.
  pose proof (Z.mod_pos_bound n d Hd) as Hr.
  set (q := n / d) in *. set (r := n mod d) in *.
  set (X := N * (2 * S')) in *. set (Y := (N + 1) * (2 * S')) in *.
  assert (X - 1 ≤ q) as Hq1 by nia.
  assert (q ≤ Y - 1) as Hq2 by nia.
  assert (Z.even X = true) as HX.
  { unfold X. rewrite Z.even_mul, (Z.even_mul 2). simpl. by rewrite orb_true_r. }
  assert (Z.even Y = true) as HY.
  { unfold Y. rewrite Z.even_mul, (Z.even_mul 2). simpl. by rewrite orb_true_r. }
  destruct (Z.ltb_spec (2 * r) d) as [H1|H1].
  - split; [nia|lia].
  - destruct (Z.ltb_spec d (2 * r)) as [H2|H2].
    + split; [lia|nia].
    + assert (d = 2 * r) as Hd2 by lia.
      destruct (Z.even q) eqn:Hev.
      * split; [|lia]. destruct (decide (q = X - 1)) as [->|]; [|lia].
        rewrite Z.even_sub, HX in Hev. done.
      * split; [lia|]. destruct (decide (q = Y - 1)) as [->|]; [|lia]. nia.
Qed.

Lemma floor_log2_pow2 (n j : Z) : 0 < n → 0 ≤ j → floor_log2 n (2 ^ j) = Z.log2 n - j.
Proof.
  intros Hn Hj. unfold floor_log2. rewrite Z.log2_pow2 by done.
  pose proof (Z.log2_spec n Hn) as [Hlo _]. pose proof (Z.log2_nonneg n) as HL.
  set (L := Z.log2 n) in *.
  destruct (Z.leb_spec 0 (L - j)) as [Hk|Hk].
  - rewrite <- Z.pow_add_r by lia. replace (j + (L - j)) with L by lia.
    destruct (Z.leb_spec (2 ^ L) n); [done|lia].
  - destruct (Z.leb_spec (2 ^ j) (n * 2 ^ (- (L - j)))) as [|Hlt]; [done|].
    exfalso. assert (2 ^ j = 2 ^ L * 2 ^ (- (L - j))) as Heq.
    { rewrite <- Z.pow_add_r by lia. f_equal. lia. }
    assert (0 < 2 ^ (- (L - j))) by (apply Z.pow_pos_nonneg; lia). nia.
Qed.
Section threshold.
Variables p emin_ C D : Z.
Hypothesis Hp : 24 ≤ p.
Hypothesis Hemin : emin_ ≤ -9.
Hypothesis HC : 25 * C = 2 ^ (p + 4) + D.
Hypothesis HD : -6 ≤ D ≤ 3.

Local Abbreviation fmt := {| prec := p; emin := emin_ |}.
Local Abbreviation k := (p - 8).

Lemma scale_factor_bounds : 0 < C < 2 ^ p.
Proof.
  assert (2 ^ (p + 4) = 16 * 2 ^ p) as Hw by (rewrite Z.pow_add_r by lia; lia).
  assert (2 ^ 24 ≤ 2 ^ p) by (apply Z.pow_le_mono_r; lia).
  assert (2 ^ 24 = 16777216) by done. lia.
Qed.

Lemma scaled_rate_exact (m a : Z) :
  0 < m < 2 ^ p → -6 ≤ a → a ≤ - emin_ → m * 64 ≤ 100 * 2 ^ (a + 6) →
  uint32_of_float (round_nearest fmt (m * C) (2 ^ (a + k))) = Z.to_N (floorScaled m a).
Proof.
  intros Hm Ha Hae H100.
  pose proof scale_factor_bounds as HCb.
  assert (0 < m * C) as Hn by nia.
  unfold round_nearest. simpl prec. simpl emin.
  destruct (Z.eqb_spec (m * C) 0) as [|_]; [lia|].
  rewrite floor_log2_pow2 by lia.
  pose proof (Z.log2_spec (m * C) Hn) as [HL1 HL2].
  pose proof (Z.log2_nonneg (m * C)) as HL0.
  set (L := Z.log2 (m * C)) in *.
  set (e := Z.max emin_ (L - (a + k) - (p - 1))).
  (* magnitude of the product *)
  assert (L < a + p + 7) as HLa.
  { apply Z.log2_lt_pow2; [done|].
    replace (a + p + 7) with ((a + 6) + 1 + p) by lia.
    rewrite !Z.pow_add_r by lia.
    assert (0 < 2 ^ (a + 6)) by (apply Z.pow_pos_nonneg; lia).
    assert (m < 2 ^ (a + 6) * 2 ^ 1) by (change (2 ^ 1) with 2; lia). nia. }
  assert (L < p + p) as HLp.
  { apply Z.log2_lt_pow2; [done|]. rewrite Z.pow_add_r by lia. nia. }
  assert (e ≤ -9) as He by (unfold e; lia).
  destruct (Z.leb_spec 0 e) as [|_]; [lia|].
  unfold uint32_of_float. simpl fexp. simpl fmant.
  destruct (Z.leb_spec 0 e) as [|_]; [lia|].
  f_equal.
  set (s := - e) in *.
  assert (2 ^ s = 2 * 2 ^ (s - 1)) as HS.
  { replace s with (1 + (s - 1)) at 1 by lia. rewrite Z.pow_add_r by lia. done. }
  assert (0 < 2 ^ (s - 1)) as HS' by (apply Z.pow_pos_nonneg; lia).
  rewrite HS.
  set (S' := 2 ^ (s - 1)) in *.
  set (B := 2 ^ (a + k)).
  assert (0 < B) as HB by (apply Z.pow_pos_nonneg; lia).
  set (W := 2 ^ (p + 4)) in *.
  assert (W = 16 * 2 ^ p) as HW by (unfold W; rewrite Z.pow_add_r by lia; lia).
  (* the rounded product keeps [p] bits: n * S < B * 2 ^ p *)
  assert (m * C * (2 * S') < B * 2 ^ p) as HF1.
  { rewrite <- HS. unfold B. rewrite <- Z.pow_add_r by lia.
    assert (2 ^ L * 2 ^ s ≤ 2 ^ (a + k + p - 1)) as Hle.
    { rewrite <- Z.pow_add_r by lia. apply Z.pow_le_mono_r; [lia|]. unfold s, e. lia. }
    assert (2 ^ (a + k + p) = 2 * 2 ^ (a + k + p - 1)) as ->.
    { replace (a + k + p) with (1 + (a + k + p - 1)) at 1 by lia.
      rewrite Z.pow_add_r by lia. done. }
    assert (0 < 2 ^ s) by lia.
    rewrite Z.pow_succ_r in HL2 by lia. nia. }
  assert (12 * (m * (2 * S')) < 25 * B) as HF1'.
  { assert (12 * (m * (2 * S')) * C < 25 * B * C); [|nia].
    assert (12 * 2 ^ p ≤ 25 * C) by lia. nia. }
  unfold floorScaled.
  destruct (Z.ltb_spec a 12) as [Ha12|Ha12].
  - (* the percentage times 4096 is an integer *)
    set (A'' := 2 ^ (12 - a)).
    assert (0 < A'') as HA'' by (apply Z.pow_pos_nonneg; lia).
    assert (B * A'' = W) as HBA.
    { unfold B, A'', W. rewrite <- Z.pow_add_r by lia. f_equal. lia. }
    pose proof (Z.div_mod (m * A'') 25 ltac:(lia)) as Hdm.
    pose proof (Z.mod_pos_bound (m * A'') 25 ltac:(lia)) as Hr.
    set (N := m * A'' / 25) in *. set (r := (m * A'') mod 25) in *.
    assert (0 ≤ N) as HN by (apply Z.div_pos; nia).
    assert (2 ^ 8 ≤ S') as HS8.
    { unfold S'. apply Z.pow_le_mono_r; lia. }
    change (2 ^ 8) with 256 in HS8.
    assert (64 * m < 128 * 2 ^ (a + 6)) as Hm7 by lia.
    assert (2 ^ (a + 6) * 2 ^ (p - 14) = B) as HB6.
    { unfold B. rewrite <- Z.pow_add_r by lia. f_equal. lia. }
    assert (2 ^ 10 ≤ 2 ^ (p - 14)) as Hp14 by (apply Z.pow_le_mono_r; lia).
    change (2 ^ 10) with 1024 in Hp14.
    assert (0 < 2 ^ (a + 6)) by (apply Z.pow_pos_nonneg; lia).
    assert (m * 8 < B) as HmB by nia.
    apply round_half_even_div; [done|nia|done|done| |].
    + (* 25 N B ≤ m W *)
      assert (25 * N * B ≤ m * W) by nia.
      assert (25 * ((2 * (N * (2 * S')) - 1) * B) ≤ 25 * (2 * (m * C * (2 * S')))); [|lia].
      replace (25 * (2 * (m * C * (2 * S')))) with (2 * (m * (2 * S')) * (25 * C)) by ring.
      rewrite HC. fold W. nia.
    + assert (m * W + B ≤ 25 * (N + 1) * B) by nia.
      assert (25 * (2 * (m * C * (2 * S'))) < 25 * ((2 * ((N + 1) * (2 * S')) - 1) * B)); [|lia].
      replace (25 * (2 * (m * C * (2 * S')))) with (2 * (m * (2 * S')) * (25 * C)) by ring.
      rewrite HC. fold W. nia.
  - (* the percentage times 4096 has [a - 12] fractional bits *)
    set (A' := 2 ^ (a - 12)).
    assert (0 < A') as HA' by (apply Z.pow_pos_nonneg; lia).
    assert (B = A' * W) as HBA.
    { unfold B, A', W. rewrite <- Z.pow_add_r by lia. f_equal. lia. }
    pose proof (Z.div_mod m (25 * A') ltac:(lia)) as Hdm.
    pose proof (Z.mod_pos_bound m (25 * A') ltac:(lia)) as Hr.
    set (N := m / (25 * A')) in *. set (r := m mod (25 * A')) in *.
    assert (0 ≤ N) as HN by (apply Z.div_pos; lia).
    assert (B ≤ 2 * S' * 2 ^ p) as HF2.
    { rewrite <- HS. unfold B. rewrite <- Z.pow_add_r by lia.
      apply Z.pow_le_mono_r; [lia|]. unfold s, e. lia. }
    apply round_half_even_div; [done|nia|done|done| |].
    + assert (25 * A' * N ≤ m) by lia.
      assert (25 * N * B ≤ m * W) by nia.
      assert (25 * ((2 * (N * (2 * S')) - 1) * B) ≤ 25 * (2 * (m * C * (2 * S')))); [|lia].
      replace (25 * (2 * (m * C * (2 * S')))) with (2 * (m * (2 * S')) * (25 * C)) by ring.
      rewrite HC. fold W. nia.
    + assert (m + 1 ≤ 25 * A' * (N + 1)) by lia.
      assert ((m + 1) * W ≤ 25 * (N + 1) * B) by nia.
      assert (25 * (2 * (m * C * (2 * S'))) < 25 * ((2 * ((N + 1) * (2 * S')) - 1) * B)); [|lia].
      replace (25 * (2 * (m * C * (2 * S')))) with (2 * (m * (2 * S')) * (25 * C)) by ring.
      rewrite HC. fold W.
      assert (16 * m < W) by lia.
      assert (16 * B ≤ 2 * S' * W) by lia.
      nia.
Qed.
End threshold.
Lemma floorScaled_exact (m e : Z) :
  0 ≤ m →
  floorScaled m (- e)
  = if 0 <=? e then (m * 2 ^ e * Z.of_N numHashBuckets) / 100
    else (m * Z.of_N numHashBuckets) / (100 * 2 ^ (- e)).
Proof.
  intros Hm. unfold floorScaled. change (Z.of_N numHashBuckets) with (4096 * 4).
  destruct (Z.leb_spec 0 e) as [He|He].
  - destruct (Z.ltb_spec (- e) 12) as [_|]; [|lia].
    replace (12 - - e) with (e + 12) by lia. rewrite Z.pow_add_r by lia.
    change (2 ^ 12) with 4096.
    replace (m * 2 ^ e * (4096 * 4)) with (m * (2 ^ e * 4096) * 4) by lia.
    change 100 with (25 * 4). by rewrite Z.div_mul_cancel_r by lia.
  - change 100 with (25 * 4).
    replace (m * (4096 * 4)) with (m * 4096 * 4) by lia.
    replace (25 * 4 * 2 ^ (- e)) with (25 * 2 ^ (- e) * 4) by lia.
    assert (0 < 2 ^ (- e)) by (apply Z.pow_pos_nonneg; lia).
    rewrite Z.div_mul_cancel_r by lia.
    destruct (Z.ltb_spec (- e) 12) as [Ha|Ha].
    + assert (4096 = 2 ^ (12 - - e) * 2 ^ (- e)) as ->.
      { rewrite <- Z.pow_add_r by lia. by replace (12 - - e + - e) with 12 by lia. }
      rewrite Z.mul_assoc, Z.div_mul_cancel_r by lia. done.
    + assert (2 ^ (- e) = 2 ^ (- e - 12) * 4096) as ->.
      { change 4096 with (2 ^ 12). rewrite <- Z.pow_add_r by lia. f_equal. lia. }
      assert (0 < 2 ^ (- e - 12)) by (apply Z.pow_pos_nonneg; lia).
      rewrite Z.mul_assoc, Z.div_mul_cancel_r by lia. done.
Qed.

(** In either format the rate computed in floating point is the exact
    floor: rounding the product never crosses an integer. *)
Lemma scaledSamplingRate_exact (fmt : binary_format) (cfg : Config) :
  fmt = binary32 ∨ fmt = binary64 →
  in_format fmt (SamplingPercentage cfg) → at_most_100 (SamplingPercentage cfg) →
  scaledSamplingRate (newInTraceSamplerSpansProcessor fmt cfg)
  = exactThreshold (SamplingPercentage cfg).
Proof.
  intros Hfmt [Hm He] H100. destruct cfg as [[m e] seed leaves]. simpl in *.
  unfold at_most_100, exactThreshold in *. simpl in *.
  rewrite <- floorScaled_exact by lia.
  assert (∃ C D, percentageScaleFactor fmt = {| fmant := C; fexp := - (prec fmt - 8) |}
                 ∧ 24 ≤ prec fmt ∧ emin fmt ≤ -9
                 ∧ 25 * C = 2 ^ (prec fmt + 4) + D ∧ -6 ≤ D ≤ 3) as (C & D & -> & Hp & Hemin & HC & HD).
  { destruct Hfmt as [->| ->].
    - exists 10737418, (-6). by vm_compute.
    - exists 5764607523034235, 3. by vm_compute. }
  unfold fmul. simpl fmant. simpl fexp.
  destruct (decide (m = 0)) as [->|Hm0].
  { assert (floorScaled 0 (- e) = 0) as ->.
    { unfold floorScaled. destruct (_ <? _); [by rewrite Z.mul_0_l|done]. }
    rewrite Z.mul_0_l.
    destruct (0 <=? e + - (prec fmt - 8)); rewrite ?Z.mul_0_l; unfold round_nearest; simpl;
      unfold uint32_of_float; simpl; destruct (Z.leb_spec 0 (emin fmt)); try lia; done. }
  assert (e ≤ 6) as He6.
  { destruct (Z.leb_spec 0 e) as [He0|]; [|lia].
    destruct (decide (e ≤ 6)); [done|exfalso].
    assert (2 ^ 7 ≤ 2 ^ e) by (apply Z.pow_le_mono_r; lia).
    change (2 ^ 7) with 128 in *. nia. }
  destruct (Z.leb_spec 0 (e + - (prec fmt - 8))) as [|_]; [lia|].
  replace (- (e + - (prec fmt - 8))) with (- e + (prec fmt - 8)) by lia.
  destruct fmt as [p em]. simpl in *.
  apply (scaled_rate_exact p em C D Hp Hemin HC HD m (- e)); [lia..|].
  destruct (Z.leb_spec 0 e) as [He0|He0].
  - replace (- e + 6) with (6 - e) by lia.
    assert (2 ^ 6 = 2 ^ e * 2 ^ (6 - e)) as Hsplit.
    { rewrite <- Z.pow_add_r by lia. f_equal. lia. }
    change (2 ^ 6) with 64 in Hsplit. rewrite Hsplit.
    assert (0 < 2 ^ (6 - e)) by (apply Z.pow_pos_nonneg; lia). nia.
  - rewrite Z.pow_add_r by lia. change (2 ^ 6) with 64. lia.
Qed.

Lemma land_bitMask (h : N) : (N.land h bitMaskHashBuckets < numHashBuckets)%N.
Proof.
  change bitMaskHashBuckets with (N.ones 14). rewrite N.land_ones.
  change numHashBuckets with (2 ^ 14)%N. by apply N.mod_lt.
Qed.
End scaled_rate.
(** C2: for a percentage in [0,100] held in either floating-point format,
    the rate computed by [newInTraceSamplerSpansProcessor] is exactly
    [floor (SamplingPercentage * 16384 / 100)], so the trace is accepted
    as a whole iff [hash(traceID, seed) & (16384 - 1)] is below that
    floor; when it is, [processTraces] returns the batch as it is. *)
Theorem C2_accept_iff_below_exact_floor (hash : N → N → N) (fmt : binary_format)
    (cfg : Config) (t : N) (fuel : nat) (td : list ptrace_ResourceSpans) :
  fmt = binary32 ∨ fmt = binary64 →
  in_format fmt (SamplingPercentage cfg) → at_most_100 (SamplingPercentage cfg) →
  scaledSamplingRate (newInTraceSamplerSpansProcessor fmt cfg)
  = exactThreshold (SamplingPercentage cfg)
  ∧ sampled hash (newInTraceSamplerSpansProcessor fmt cfg) t
    = bool_decide (N.land (hash t (HashSeed cfg)) (16384 - 1)
                   < exactThreshold (SamplingPercentage cfg))%N
  ∧ (getSingleTraceId td = Some t →
     (N.land (hash t (HashSeed cfg)) (16384 - 1) < exactThreshold (SamplingPercentage cfg))%N →
     processTraces hash fuel (newInTraceSamplerSpansProcessor fmt cfg) td = Some (td, [])).
Proof.
  intros Hfmt Hin H100.
  pose proof (scaledSamplingRate_exact fmt cfg Hfmt Hin H100) as Hrate.
  assert (sampled hash (newInTraceSamplerSpansProcessor fmt cfg) t
          = bool_decide (N.land (hash t (HashSeed cfg)) (16384 - 1)
                         < exactThreshold (SamplingPercentage cfg))%N) as Hs.
  { unfold sampled. by rewrite Hrate. }
  split; [done|]. split; [done|].
  intros Hsingle Hlt. unfold processTraces. rewrite Hsingle, Hs.
  by rewrite bool_decide_true.
Qed.

Lemma C2_accept_iff_below_exact_floor_witness :
  scaledSamplingRate
    (newInTraceSamplerSpansProcessor binary32
       {| SamplingPercentage := pct_15_3; HashSeed := 22; ScopeLeaves := ["foo"; "bar"] |})
  = 2506%N.
Proof.
  refine (proj1 (C2_accept_iff_below_exact_floor (λ _ _, 0%N) binary32
                   {| SamplingPercentage := pct_15_3; HashSeed := 22;
                      ScopeLeaves := ["foo"; "bar"] |} 7%N 0 [] _ _ _)).
  - left. reflexivity.
  - split; [split|]; by_evaluation.
  - unfold at_most_100. by_evaluation.
Defined.

(** C3: whatever the trace identity, the seed and the hash, a sampling
    percentage of 0 accepts no trace as a whole and a sampling percentage
    of 100 accepts every trace as a whole. *)
Theorem C3_boundary_percentages (hash : N → N → N) (fmt : binary_format)
    (cfg : Config) (t : N) :
  fmt = binary32 ∨ fmt = binary64 →
  in_format fmt (SamplingPercentage cfg) →
  (float_is (SamplingPercentage cfg) 0 →
   scaledSamplingRate (newInTraceSamplerSpansProcessor fmt cfg) = 0%N
   ∧ sampled hash (newInTraceSamplerSpansProcessor fmt cfg) t = false)
  ∧ (float_is (SamplingPercentage cfg) 100 →
     scaledSamplingRate (newInTraceSamplerSpansProcessor fmt cfg) = numHashBuckets
     ∧ sampled hash (newInTraceSamplerSpansProcessor fmt cfg) t = true).
Proof.
  intros Hfmt Hin. split; intros Hval.
  - assert (scaledSamplingRate (newInTraceSamplerSpansProcessor fmt cfg) = 0%N) as Hrate.
    { rewrite scaledSamplingRate_exact; [|done..|].
      - unfold exactThreshold, float_is in *.
        destruct (0 <=? fexp (SamplingPercentage cfg))%Z.
        + by rewrite Hval.
        + by rewrite Hval, !Z.mul_0_l.
      - unfold at_most_100, float_is in *.
        destruct (Z.leb_spec 0 (fexp (SamplingPercentage cfg))); [lia|].
        rewrite Hval, Z.mul_0_l.
        assert (0 < 2 ^ (- fexp (SamplingPercentage cfg)))%Z; [|lia].
        apply Z.pow_pos_nonneg; lia. }
    split; [done|]. by apply sampled_zero_rate.
  - assert (scaledSamplingRate (newInTraceSamplerSpansProcessor fmt cfg) = numHashBuckets)
      as Hrate.
    { rewrite scaledSamplingRate_exact; [|done..|].
      - unfold exactThreshold, float_is in *.
        destruct (Z.leb_spec 0 (fexp (SamplingPercentage cfg))).
        + rewrite Hval. reflexivity.
        + rewrite Hval.
          assert (0 < 2 ^ (- fexp (SamplingPercentage cfg)))%Z
            by (apply Z.pow_pos_nonneg; lia).
          replace (100 * 2 ^ (- fexp (SamplingPercentage cfg)) * Z.of_N numHashBuckets)%Z
            with (Z.of_N numHashBuckets * (100 * 2 ^ (- fexp (SamplingPercentage cfg))))%Z
            by lia.
          rewrite Z.div_mul by lia. reflexivity.
      - unfold at_most_100, float_is in *.
        destruct (0 <=? fexp (SamplingPercentage cfg))%Z; lia. }
    split; [done|]. unfold sampled. rewrite Hrate.
    apply bool_decide_eq_true, land_bitMask.
Qed.

Lemma C3_boundary_percentages_witness :
  sampled (λ t seed, t + seed)%N
    (newInTraceSamplerSpansProcessor binary32
       {| SamplingPercentage := {| fmant := 0; fexp := 0 |}; HashSeed := 22;
          ScopeLeaves := [] |}) 7 = false
  ∧ sampled (λ t seed, t + seed)%N
      (newInTraceSamplerSpansProcessor binary64
         {| SamplingPercentage := {| fmant := 100; fexp := 0 |}; HashSeed := 22;
            ScopeLeaves := [] |}) 7 = true.
Proof.
  split.
  - refine (proj2 (proj1 (C3_boundary_percentages (λ t seed, t + seed)%N binary32
                            {| SamplingPercentage := {| fmant := 0; fexp := 0 |};
                               HashSeed := 22; ScopeLeaves := [] |} 7%N _ _) _)).
    + left. reflexivity.
    + split; [split|]; by_evaluation.
    + reflexivity.
  - refine (proj2 (proj2 (C3_boundary_percentages (λ t seed, t + seed)%N binary64
                            {| SamplingPercentage := {| fmant := 100; fexp := 0 |};
                               HashSeed := 22; ScopeLeaves := [] |} 7%N _ _) _)).
    + right. reflexivity.
    + split; [split|]; by_evaluation.
    + reflexivity.
Defined.

(** ** Two remarks on the model *)

Lemma alltrue_ext m1 m2 :
  alltrue m1 → alltrue m2 → (∀ k, marked m1 k = true ↔ marked m2 k = true) → m1 = m2.
Proof.
  intros H1 H2 Hk. apply map_eq. intros k. specialize (Hk k). rewrite !marked_true in Hk.
  destruct (m1 !! k) as [v1|] eqn:E1, (m2 !! k) as [v2|] eqn:E2; [| | |done].
  - by rewrite (H1 _ _ E1), (H2 _ _ E2).
  - rewrite (H1 _ _ E1) in Hk. by destruct Hk as [Hk _]; specialize (Hk eq_refl).
  - rewrite (H2 _ _ E2) in Hk. by destruct Hk as [_ Hk]; specialize (Hk eq_refl).
Qed.

(** The order in which Go ranges over [fullSpans] to collect the roots has
    no influence on the to-remove set. *)
Lemma getScopeBranchesToUnsample_roots_order its T f rs :
  wfTree T → size (fullSpans T) ≤ f → rs ≡ₚ roots T →
  rangeRoots its T f rs ∅ = getScopeBranchesToUnsample its T f.
Proof.
  intros Hwf Hf Hperm. unfold getScopeBranchesToUnsample.
  assert (∀ l, (∀ r, r ∈ l → r ∈ roots T) →
            ∃ st, rangeRoots_logged its T f l (∅, []) = Some st
                  ∧ alltrue st.1
                  ∧ ∀ k, marked st.1 k = true ↔
                         k ∈ l ≫= preorder T f
                         ∧ prunable (ScopeLeaves (config its)) T k) as Hrun.
  { intros l Hl. destruct (rangeRoots_logged_returns its T f l (∅, [])) as [st Hst].
    - intros r st Hr. apply (getScopeBranchesToUnsampleRec_logged_returns its T Hwf f r 0);
        [by apply root_depth, Hl|lia].
    - exists st. split; [done|].
      apply (rangeRoots_logged_spec its T Hwf) in Hst as (_ & _ & Hm & Ht). simpl in *.
      split; [apply Ht, alltrue_empty|]. intros k. rewrite Hm.
      unfold marked at 1. rewrite lookup_empty. simpl. naive_solver. }
  destruct (Hrun rs) as (st1 & Hr1 & Ht1 & Hm1); [intros r; by rewrite Hperm|].
  destruct (Hrun (roots T)) as (st2 & Hr2 & Ht2 & Hm2); [done|].
  rewrite (rangeRoots_erase its T f rs ∅ []), (rangeRoots_erase its T f (roots T) ∅ []).
  rewrite Hr1, Hr2. simpl. f_equal. apply alltrue_ext; [done..|].
  intros k. rewrite Hm1, Hm2, !list_elem_of_bind. by setoid_rewrite Hperm.
Qed.

Section no_cycle.
Variable T : TraceTreeData.

Lemma leavesBatch_or_cycle f k vs :
  NoDup vs →
  (∀ v, v ∈ vs → is_Some (fullSpans T !! v) ∧ ∃ j, 0 < j ∧ ancestor T j v = Some k) →
  size (fullSpans T) < length vs + f →
  leavesBatch T f k = true
  ∨ ∃ y j, is_Some (fullSpans T !! y) ∧ 0 < j ∧ ancestor T j y = Some y.
Proof.
  revert k vs. induction f as [|f IH]; intros k vs Hnd Hvs Hf.
  - exfalso. rewrite <- (size_dom (D:=gset N)), <- (size_list_to_set (C:=gset N) vs) in Hf by done.
    assert (size (list_to_set (C:=gset N) vs) ≤ size (dom (fullSpans T))); [|lia].
    apply subseteq_size. intros y Hy%elem_of_list_to_set. apply elem_of_dom. by apply Hvs.
  - simpl. destruct (fullSpans T !! k) as [fs|] eqn:Hk; [|by left].
    destruct (decide (k ∈ vs)) as [Hin|Hin].
    { right. destruct (Hvs k Hin) as [? (j & ? & ?)]. by exists k, j. }
    apply (IH (parentOf fs) (k :: vs)).
    + by apply NoDup_cons.
    + intros v [->|Hv]%elem_of_cons.
      * split; [by eexists|]. exists 1. split; [lia|]. simpl. by rewrite Hk.
      * destruct (Hvs v Hv) as [? (j & ? & Hj)]. split; [done|].
        exists (j + 1). split; [lia|]. rewrite ancestor_add, Hj. simpl. by rewrite Hk.
    + simpl. lia.
Qed.
End no_cycle.

(** [acyclicParents] is what it is meant to be: no span of the batch is
    its own ancestor. *)
Lemma acyclicParents_no_cycle td :
  uniqueSpanIDs td →
  acyclicParents td ↔
  ∀ k j, k ∈ batchIds td → 0 < j → ancestor (spansToTraceTree td) j k ≠ Some k.
Proof.
  intros Hu. split.
  - intros Ha k j Hk Hj Hcyc.
    destruct (acyclicParents_depth td k Hu Ha Hk) as [d Hd].
    pose proof (depth_ancestor _ _ _ _ _ Hd Hcyc) as Hd'.
    pose proof (depth_functional _ _ _ _ Hd Hd'). lia.
  - intros Hno. apply Forall_forall. intros k Hk.
    destruct (leavesBatch_or_cycle (spansToTraceTree td) (S (length (batchIds td))) k [])
      as [?|(y & j & Hy & Hj & Hcyc)]; [constructor|by intros ? ?%elem_of_nil| |done|].
    + rewrite tree_size by done. simpl. lia.
    + destruct (Hno y j); [by apply tree_fullSpans_is_Some|done..].
Qed.

(* ================================================================= *)
(** * Further properties of the code *)

(** ** The tree builder *)

Lemma fmap_filter_span (P : ptrace_Span → Prop) `{!∀ s, Decision (P s)} (l : list FullSpan) :
  span <$> filter (λ fs, P (span fs)) l = filter P (span <$> l).
Proof.
  induction l as [|fs l IH]; [done|].
  rewrite fmap_cons, !filter_cons. destruct (decide _); by rewrite ?fmap_cons, IH.
Qed.

(** X1: whatever the batch, [children[p]] lists the identities of the
    spans whose parent identity is [p], in the order of the batch and with
    repetitions if identities repeat; a parent identity that no span names
    has no entry and reads as the empty list. *)
Theorem X1_children_in_batch_order (td : list ptrace_ResourceSpans) (p : N) :
  children (spansToTraceTree td) !!! p
  = SpanID <$> filter (λ s, ParentSpanID s = p) (spansOf td)
  ∧ (children (spansToTraceTree td) !! p = None ↔
     ∀ s, s ∈ spansOf td → ParentSpanID s ≠ p).
Proof.
  assert (children (spansToTraceTree td) !!! p
          = SpanID <$> filter (λ s, ParentSpanID s = p) (spansOf td)) as Hc.
  { rewrite tree_children. unfold spansOf.
    rewrite <- (fmap_filter_span (λ s, ParentSpanID s = p)), <- list_fmap_compose. done. }
  split; [done|].
  unfold spansToTraceTree. simpl. rewrite spansToTraceTree_flat. unfold spansOf.
  induction (fullSpansOf td) as [|fs l IH] using rev_ind.
  - simpl. rewrite lookup_empty. split; [by intros _ ? ?%elem_of_nil|done].
  - rewrite foldl_app, fmap_app. simpl. rewrite lookup_insert. case_decide as Hp.
    + split; [done|]. intros H. destruct (H (span fs)); [|done].
      apply elem_of_app. right. by left.
    + rewrite IH. split.
      * intros H s [Hs|Hs%list_elem_of_singleton]%elem_of_app; [by apply H|by subst].
      * intros H s Hs. apply H, elem_of_app. by left.
Qed.

(** X2: whatever the batch, [fullSpans[k]] is the last span of the batch
    with identity [k], with the resource and scope it sits under (a later
    span overwrites an earlier one of the same identity); the key of every
    entry is the identity of the span stored there, and [k] has no entry
    exactly when no span of the batch has identity [k]. *)
Theorem X2_fullSpans_last_wins (td : list ptrace_ResourceSpans) (k : N) :
  fullSpans (spansToTraceTree td) !! k
  = last (filter (λ fs, SpanID (span fs) = k) (fullSpansOf td))
  ∧ (∀ fs, fullSpans (spansToTraceTree td) !! k = Some fs →
           SpanID (span fs) = k ∧ fs ∈ fullSpansOf td)
  ∧ (fullSpans (spansToTraceTree td) !! k = None ↔ k ∉ SpanID <$> spansOf td).
Proof.
  split; [apply tree_fullSpans|]. split; [apply tree_fullSpans_Some|].
  rewrite eq_None_not_Some, tree_fullSpans_is_Some. unfold batchIds, spansOf.
  by rewrite <- list_fmap_compose.
Qed.

(** X3: on a batch with unique span identities nothing is overwritten:
    looking a span up by its identity gives back that span with its own
    resource and scope, and [fullSpans] has as many entries as the batch
    has spans. *)
Theorem X3_fullSpans_lookup_unique (td : list ptrace_ResourceSpans) :
  uniqueSpanIDs td →
  (∀ fs, fs ∈ fullSpansOf td → fullSpans (spansToTraceTree td) !! SpanID (span fs) = Some fs)
  ∧ size (fullSpans (spansToTraceTree td)) = length (spansOf td).
Proof.
  intros Hu. split; [intros fs; by apply tree_fullSpans_unique|].
  rewrite tree_size by done. unfold batchIds, spansOf. by rewrite !length_fmap.
Qed.

Lemma X3_fullSpans_lookup_unique_witness :
  fullSpans (spansToTraceTree chain_AAB) !! 3%N
  = Some (mkFullSpan exampleResource (scopeNamed "B") (exampleSpan 3 2))
  ∧ size (fullSpans (spansToTraceTree chain_AAB)) = 3.
Proof.
  assert (uniqueSpanIDs chain_AAB) as Hu by by_evaluation.
  destruct (X3_fullSpans_lookup_unique chain_AAB Hu) as [Hlook Hsize].
  split; [|exact Hsize].
  apply (Hlook (mkFullSpan exampleResource (scopeNamed "B") (exampleSpan 3 2))).
  by_evaluation.
Defined.
(** ** The evaluator *)

(** X4: Go ranges over the map [fullSpans] in an unspecified order when it
    collects the roots; on a batch with unique span identities the
    to-remove set is the same for every order of the roots. *)
Theorem X4_roots_order_irrelevant (its : inTraceSamplerProcessor)
    (td : list ptrace_ResourceSpans) (fuel : nat) (rs : list N) :
  uniqueSpanIDs td → length (batchIds td) ≤ fuel →
  rs ≡ₚ roots (spansToTraceTree td) →
  rangeRoots its (spansToTraceTree td) fuel rs ∅
  = getScopeBranchesToUnsample its (spansToTraceTree td) fuel.
Proof.
  intros Hu Hf Hperm. apply getScopeBranchesToUnsample_roots_order; [| |done].
  - by apply spansToTraceTree_wf.
  - rewrite tree_size by done. lia.
Qed.

Lemma X4_roots_order_irrelevant_witness :
  rangeRoots (leavesProcessor ["drop"]) (spansToTraceTree empty_grouping_batch) 2
    (reverse (roots (spansToTraceTree empty_grouping_batch))) ∅
  = getScopeBranchesToUnsample (leavesProcessor ["drop"])
      (spansToTraceTree empty_grouping_batch) 2.
Proof.
  apply (X4_roots_order_irrelevant (leavesProcessor ["drop"]) empty_grouping_batch 2).
  - by_evaluation.
  - vm_compute. lia.
  - apply reverse_Permutation.
Defined.

(** X5: when no span of the batch sits under one of the leaf scopes (in
    particular when [ScopeLeaves] is empty), the to-remove set is empty
    and [processTraces] returns the batch as it is, without a debug
    entry. *)
Theorem X5_no_leaf_scope_no_pruning (hash : N → N → N) (its : inTraceSamplerProcessor)
    (td : list ptrace_ResourceSpans) (fuel : nat) :
  uniqueSpanIDs td → length (batchIds td) ≤ fuel →
  (∀ fs, fs ∈ fullSpansOf td → Name (scope fs) ∉ ScopeLeaves (config its)) →
  getScopeBranchesToUnsample its (spansToTraceTree td) fuel = Some ∅
  ∧ (processTraces hash fuel its td = Some (td, [])
     ∨ processTraces hash fuel its td = Some (td, [warnDifferentTraces])).
Proof.
  intros Hu Hf Hno.
  destruct (getScopeBranchesToUnsample_batch its td fuel Hu Hf)
    as (m & _ & _ & Hr & Ht & _ & _ & Hm).
  assert (m = ∅) as ->.
  { apply alltrue_unmarked_empty; [done|].
    intros k [_ (fs & Hfs & Hl)%prunable_leafScoped]%Hm.
    apply tree_fullSpans_Some in Hfs as [_ Hin]. by apply (Hno fs). }
  split; [done|]. unfold processTraces.
  destruct (getSingleTraceId td) as [t|]; [|by right].
  destruct (sampled hash its t); [by left|]. rewrite Hr. by left.
Qed.

Lemma X5_no_leaf_scope_no_pruning_witness :
  processTraces (λ _ _, 0%N) 3 (leavesProcessor []) chain_AAB = Some (chain_AAB, []).
Proof.
  assert (uniqueSpanIDs chain_AAB) as Hu by by_evaluation.
  assert (length (batchIds chain_AAB) ≤ 3) as Hf by (vm_compute; lia).
  destruct (X5_no_leaf_scope_no_pruning (λ _ _, 0%N) (leavesProcessor []) chain_AAB 3 Hu Hf)
    as [_ [H|H]].
  - intros fs _ Hin. exact (proj1 (elem_of_nil _) Hin).
  - exact H.
  - discriminate H.
Defined.

(** X6: pruning removes whole subtrees.  On a batch with unique span
    identities every child of a marked span is marked, and in the output
    of [processTraces] no span has lost its parent: if the parent of a
    kept span was in the batch, it is still there. *)
Theorem X6_no_span_orphaned (hash : N → N → N) (its : inTraceSamplerProcessor)
    (td : list ptrace_ResourceSpans) (fuel : nat) :
  uniqueSpanIDs td → length (batchIds td) ≤ fuel →
  (∃ m, getScopeBranchesToUnsample its (spansToTraceTree td) fuel = Some m
        ∧ ∀ k c, m !! k = Some true → c ∈ children (spansToTraceTree td) !!! k →
                 m !! c = Some true)
  ∧ (∃ out log, processTraces hash fuel its td = Some (out, log)
        ∧ ∀ s, s ∈ spansOf out → ParentSpanID s ∈ SpanID <$> spansOf td →
               ParentSpanID s ∈ SpanID <$> spansOf out).
Proof.
  intros Hu Hf.
  destruct (getScopeBranchesToUnsample_batch its td fuel Hu Hf)
    as (m & _ & _ & Hr & Ht & _ & _ & Hm).
  pose proof (spansToTraceTree_wf td Hu) as Hwf.
  assert (∀ k c, m !! k = Some true → c ∈ children (spansToTraceTree td) !!! k →
                 m !! c = Some true) as Hclosed.
  { intros k c [[d Hd] Hp]%Hm Hc. apply Hm. split.
    - exists (S d). by eapply child_depth.
    - destruct Hp as [k _ Hcs]. by apply Hcs. }
  split; [by exists m|].
  assert (∀ l : list FullSpan, SpanID <$> (span <$> l) = idOf <$> l) as Hids.
  { intros l. by rewrite <- list_fmap_compose. }
  unfold processTraces.
  destruct (getSingleTraceId td) as [t|]; [|by eexists _, _].
  destruct (sampled hash its t); [by eexists _, _|]. rewrite Hr. simpl.
  case_bool_decide as Hsz; [by eexists _, _|].
  eexists _, _. split; [done|]. rewrite removeSpansByIds_compact. unfold spansOf.
  rewrite !Hids, fullSpansOf_compact.
  intros s (fs & -> & [Hun Hin]%list_elem_of_filter)%list_elem_of_fmap Hp.
  apply list_elem_of_fmap in Hp as (fp & Hpid & Hfp).
  apply list_elem_of_fmap. exists fp. split; [done|].
  apply list_elem_of_filter. split; [|done].
  destruct (marked m (idOf fp)) eqn:E; [|done].
  apply marked_true in E.
  assert (marked m (idOf fs) = true); [|congruence].
  apply marked_true, (Hclosed (idOf fp)); [done|].
  apply (wf_children _ Hwf). exists fs. split; [by apply tree_fullSpans_unique|done].
Qed.

Lemma X6_no_span_orphaned_witness :
  ∃ out log,
    processTraces (λ _ _, 0%N) 3 (leavesProcessor ["B"]) chain_AAB = Some (out, log)
    ∧ ∀ s, s ∈ spansOf out → ParentSpanID s ∈ SpanID <$> spansOf chain_AAB →
           ParentSpanID s ∈ SpanID <$> spansOf out.
Proof.
  assert (uniqueSpanIDs chain_AAB) as Hu by by_evaluation.
  assert (length (batchIds chain_AAB) ≤ 3) as Hf by (vm_compute; lia).
  exact (proj2 (X6_no_span_orphaned (λ _ _, 0%N) (leavesProcessor ["B"]) chain_AAB 3 Hu Hf)).
Defined.
Lemma rangeChildren_None {St} (rec : N → St → option (bool * St)) cs c cur st :
  c ∈ cs → (∀ st, rec c st = None) → rangeChildren rec cs cur st = None.
Proof.
  revert cur st. induction cs as [|c' cs IH]; intros cur st Hc Hnone.
  - by apply elem_of_nil in Hc.
  - simpl. destruct (rec c' st) as [[b st']|] eqn:E; [|done]. simpl.
    apply elem_of_cons in Hc as [->|Hc]; [by rewrite Hnone in E|by apply IH].
Qed.

Lemma rangeRoots_None its T fuel rs r m :
  r ∈ rs → (∀ m, getScopeBranchesToUnsampleRec its T fuel r m = None) →
  rangeRoots its T fuel rs m = None.
Proof.
  revert m. induction rs as [|r' rs IH]; intros m Hr Hnone.
  - by apply elem_of_nil in Hr.
  - simpl. destruct (getScopeBranchesToUnsampleRec its T fuel r' m) as [[b m']|] eqn:E; [|done].
    simpl. apply elem_of_cons in Hr as [->|Hr]; [by rewrite Hnone in E|by apply IH].
Qed.

(** X7: without unique span identities the children mapping can loop.  If
    a span that is reachable from a root is below one of its own children,
    the recursion never comes back: the evaluator has no result, whatever
    depth it is allowed, and neither has [processTraces] on the pruning
    path (in Go the stack overflows). *)
Theorem X7_cycle_below_root_never_returns (hash : N → N → N)
    (its : inTraceSamplerProcessor) (td : list ptrace_ResourceSpans) (t r x c : N) :
  getSingleTraceId td = Some t → sampled hash its t = false →
  r ∈ roots (spansToTraceTree td) → inSubtree (spansToTraceTree td) r x →
  c ∈ children (spansToTraceTree td) !!! x → inSubtree (spansToTraceTree td) c x →
  ∀ fuel,
    getScopeBranchesToUnsample its (spansToTraceTree td) fuel = None
    ∧ processTraces hash fuel its td = None.
Proof.
  intros Hs Hsam Hr Hrx Hc Hcx fuel.
  rewrite (processTraces_pruning hash fuel its td t Hs Hsam).
  set (T := spansToTraceTree td) in *. clearbody T.
  assert (∀ f y m, inSubtree T y x →
            getScopeBranchesToUnsampleRec its T f y m = None) as Hnone.
  { induction f as [|f IH]; intros y m Hy; [done|]. simpl.
    destruct (fullSpans T !! y) as [fs|]; [|done]. simpl.
    assert (∃ c', c' ∈ children T !!! y ∧ inSubtree T c' x) as (c' & Hc' & Hc'x).
    { destruct Hy as [y|y c' z Hc' Hz]; [by exists c|by exists c']. }
    rewrite (rangeChildren_None _ _ c'); [done..|]. intros m'. by apply IH. }
  assert (getScopeBranchesToUnsample its T fuel = None) as Hnone'.
  { unfold getScopeBranchesToUnsample. apply (rangeRoots_None _ _ _ _ r); [done|].
    intros m. by apply Hnone. }
  split; [done|]. by rewrite Hnone'.
Qed.

Lemma X7_cycle_below_root_never_returns_witness :
  1%N ∈ roots (spansToTraceTree duplicate_cycle_batch)
  ∧ ∀ fuel,
      processTraces (λ _ _, 0%N) fuel (leavesProcessor ["A"]) duplicate_cycle_batch = None.
Proof.
  assert (1%N ∈ roots (spansToTraceTree duplicate_cycle_batch)) as Hroot by by_evaluation.
  split; [exact Hroot|]. intros fuel.
  refine (proj2 (X7_cycle_below_root_never_returns (λ _ _, 0%N) (leavesProcessor ["A"])
                   duplicate_cycle_batch 7 1 1 2 _ _ Hroot _ _ _ fuel)).
  - reflexivity.
  - reflexivity.
  - apply inSubtree_self.
  - by_evaluation.
  - apply (inSubtree_child _ 2 1 1); [by_evaluation|apply inSubtree_self].
Defined.

(** X8: on every batch, with or without repeated identities, a to-remove
    set that the evaluator returns holds only the value [true], and every
    identity in it is the identity of a span of the batch whose entry in
    [fullSpans] sits under one of the leaf scopes. *)
Theorem X8_to_remove_set_contents (its : inTraceSamplerProcessor)
    (td : list ptrace_ResourceSpans) (fuel : nat) (m : gmap N bool) :
  getScopeBranchesToUnsample its (spansToTraceTree td) fuel = Some m →
  ∀ k v, m !! k = Some v →
    v = true
    ∧ k ∈ SpanID <$> spansOf td
    ∧ ∃ fs, fullSpans (spansToTraceTree td) !! k = Some fs
            ∧ Name (scope fs) ∈ ScopeLeaves (config its).
Proof.
  intros Hr k v Hk.
  destruct (getScopeBranchesToUnsample_keys its td fuel m Hr k v Hk) as (Hv & Hin & Hfs).
  split_and!; [done| |done]. unfold spansOf. by rewrite <- list_fmap_compose.
Qed.

Lemma X8_to_remove_set_contents_witness :
  ∃ m,
    getScopeBranchesToUnsample (leavesProcessor ["drop"])
      (spansToTraceTree duplicate_id_batch) 1 = Some m
    ∧ ∀ k v, m !! k = Some v → v = true ∧ k ∈ SpanID <$> spansOf duplicate_id_batch.
Proof.
  eexists. split; [reflexivity|]. intros k v Hk.
  destruct (X8_to_remove_set_contents (leavesProcessor ["drop"]) duplicate_id_batch 1 _
              eq_refl k v Hk) as (Hv & Hin & _).
  split; [exact Hv|exact Hin].
Defined.
(** ** Removal *)

(** X9: for every batch and every to-remove set, the spans left by
    [removeSpansByIds] are the spans whose identity is not mapped to
    [true], in batch order, each under the resource and scope it had; an
    identity that is missing from the set or mapped to [false] keeps its
    spans. *)
Theorem X9_removal_is_a_filter (td : list ptrace_ResourceSpans) (idsToRemove : gmap N bool) :
  fullSpansOf (removeSpansByIds td idsToRemove)
  = filter (λ fs, idsToRemove !! SpanID (span fs) ≠ Some true) (fullSpansOf td).
Proof.
  rewrite removeSpansByIds_compact, fullSpansOf_compact.
  apply list_filter_iff. intros fs. unfold idOf.
  rewrite <- marked_true. by destruct (marked _ _).
Qed.

Lemma filter_filter_or {A} (P1 P2 P : A → Prop)
    `{!∀ x, Decision (P1 x), !∀ x, Decision (P2 x), !∀ x, Decision (P x)} (l : list A) :
  (∀ x, P x ↔ P1 x ∧ P2 x) → filter P2 (filter P1 l) = filter P l.
Proof.
  intros HP. induction l as [|a l IH]; [done|].
  rewrite (filter_cons P1), (filter_cons P). destruct (decide (P1 a)) as [Ha1|Ha1].
  - rewrite filter_cons. destruct (decide (P2 a)) as [Ha2|Ha2].
    + rewrite decide_True by by apply HP. by rewrite IH.
    + rewrite decide_False by (rewrite HP; tauto). done.
  - rewrite decide_False by (rewrite HP; tauto). done.
Qed.

Section compose_removals.
Variables m1 m2 m : gmap N bool.
Hypothesis Hm : ∀ k, marked m k = marked m1 k || marked m2 k.

Lemma pruneScopeSpans_compose ss :
  pruneScopeSpans m2 (pruneScopeSpans m1 ss) = pruneScopeSpans m ss.
Proof.
  unfold pruneScopeSpans. simpl. f_equal. apply filter_filter_or.
  intros s. rewrite Hm, orb_false_iff. tauto.
Qed.

Lemma pruneScopeSpans_list_compose (l : list ptrace_ScopeSpans) :
  filter (λ ss, Spans ss ≠ [])
    (pruneScopeSpans m2 <$> filter (λ ss, Spans ss ≠ []) (pruneScopeSpans m1 <$> l))
  = filter (λ ss, Spans ss ≠ []) (pruneScopeSpans m <$> l).
Proof.
  induction l as [|ss l IH]; [done|].
  rewrite !fmap_cons, (filter_cons _ (pruneScopeSpans m1 ss)), (filter_cons _ (pruneScopeSpans m ss)).
  rewrite <- pruneScopeSpans_compose.
  destruct (decide (Spans (pruneScopeSpans m1 ss) ≠ [])) as [Hne|Hnil].
  - by rewrite fmap_cons, filter_cons, IH.
  - apply dec_stable in Hnil. rewrite IH.
    rewrite decide_False; [done|]. intros Hne. apply Hne.
    unfold pruneScopeSpans at 1. cbn [Spans]. by rewrite Hnil.
Qed.

Lemma pruneResourceSpans_compose rs :
  pruneResourceSpans m2 (pruneResourceSpans m1 rs) = pruneResourceSpans m rs.
Proof.
  unfold pruneResourceSpans at 1 3. simpl. f_equal. apply pruneScopeSpans_list_compose.
Qed.

Lemma compact_compose (td : list ptrace_ResourceSpans) : compact m2 (compact m1 td) = compact m td.
Proof.
  unfold compact. induction td as [|rs td IH]; [done|].
  rewrite !fmap_cons, (filter_cons _ (pruneResourceSpans m1 rs)),
    (filter_cons _ (pruneResourceSpans m rs)).
  rewrite <- pruneResourceSpans_compose.
  destruct (decide (ScopeSpans (pruneResourceSpans m1 rs) ≠ [])) as [Hne|Hnil].
  - by rewrite fmap_cons, filter_cons, IH.
  - apply dec_stable in Hnil. rewrite IH.
    rewrite decide_False; [done|]. intros Hne. apply Hne.
    unfold pruneResourceSpans at 1. cbn [ScopeSpans]. by rewrite Hnil.
Qed.
End compose_removals.

(** X10: removals compose.  Removing by [m1] and then by [m2] is removing
    once by any set that marks what [m1] or [m2] marks; so removing twice
    by the same set is removing once, and two removals can be swapped. *)
Theorem X10_removals_compose (td : list ptrace_ResourceSpans) (m1 m2 : gmap N bool) :
  (∀ m, (∀ k, marked m k = marked m1 k || marked m2 k) →
        removeSpansByIds (removeSpansByIds td m1) m2 = removeSpansByIds td m)
  ∧ removeSpansByIds (removeSpansByIds td m1) m1 = removeSpansByIds td m1
  ∧ removeSpansByIds (removeSpansByIds td m1) m2
    = removeSpansByIds (removeSpansByIds td m2) m1.
Proof.
  split_and!.
  - intros m Hm. rewrite !removeSpansByIds_compact. by apply compact_compose.
  - rewrite !removeSpansByIds_compact. apply compact_compose. intros k. by rewrite orb_diag.
  - rewrite !removeSpansByIds_compact.
    assert (∃ m, ∀ k, marked m k = marked m1 k || marked m2 k) as [m' Hm'].
    { exists (merge (λ o1 o2, Some (default false o1 || default false o2)) m1 m2).
      intros k. unfold marked. rewrite lookup_merge.
      by destruct (m1 !! k), (m2 !! k). }
    rewrite (compact_compose m1 m2 m' Hm').
    rewrite (compact_compose m2 m1 m'); [done|]. intros k. by rewrite Hm', orb_comm.
Qed.

Lemma X10_removals_compose_witness :
  removeSpansByIds (removeSpansByIds chain_AAB {[ 3%N := true ]}) {[ 2%N := true ]}
  = removeSpansByIds chain_AAB {[ 2%N := true; 3%N := true ]}.
Proof.
  apply (proj1 (X10_removals_compose chain_AAB {[ 3%N := true ]} {[ 2%N := true ]})).
  intros k. unfold marked. rewrite lookup_insert, !lookup_singleton.
  repeat case_decide; reflexivity.
Defined.
(** ** processTraces *)

Lemma length_filter_split {A} (P : A → Prop) `{!∀ x, Decision (P x)} (l : list A) :
  length l = length (filter P l) + length (filter (λ x, ¬ P x) l).
Proof.
  induction l as [|a l IH]; [done|]. rewrite !filter_cons. simpl.
  destruct (decide (P a)).
  - rewrite decide_False by tauto. simpl. lia.
  - rewrite decide_True by done. simpl. lia.
Qed.

(** With unique identities the size of the to-remove set is the number of
    spans that the removal drops. *)
Lemma removed_span_count its td fuel m :
  uniqueSpanIDs td →
  getScopeBranchesToUnsample its (spansToTraceTree td) fuel = Some m →
  length (spansOf (compact m td)) + size m = length (spansOf td).
Proof.
  intros Hu Hr. pose proof (getScopeBranchesToUnsample_keys its td fuel m Hr) as Hkeys.
  unfold spansOf. rewrite !length_fmap.
  rewrite <- (length_fmap idOf (fullSpansOf td)), <- (length_fmap idOf (fullSpansOf (compact m td))).
  fold (batchIds td). fold (batchIds (compact m td)). rewrite batchIds_compact.
  rewrite (length_filter_split (λ k, marked m k = false) (batchIds td)). f_equal.
  rewrite <- (size_dom (D:=gset N)).
  rewrite <- (size_list_to_set (C:=gset N)) by by apply NoDup_filter.
  f_equal. apply set_eq. intros k.
  rewrite elem_of_list_to_set, list_elem_of_filter, elem_of_dom. split.
  - intros [v Hv]. destruct (Hkeys k v Hv) as (-> & Hin & _). split; [|done].
    apply marked_true in Hv. by rewrite Hv.
  - intros [Hk Hin]. destruct (marked m k) eqn:E; [|done]. apply marked_true in E. by eexists.
Qed.

(** X11: on a batch with unique span identities, the number that
    [processTraces] reports in its debug entry is the number of spans it
    has removed, and it is at least one; without a debug entry the batch
    comes back as it was. *)
Theorem X11_debug_entry_counts_removed_spans (hash : N → N → N)
    (its : inTraceSamplerProcessor) (td out : list ptrace_ResourceSpans)
    (fuel : nat) (log : list LogEntry) :
  uniqueSpanIDs td →
  processTraces hash fuel its td = Some (out, log) →
  (out = td ∧ (log = [] ∨ log = [warnDifferentTraces]))
  ∨ ∃ n, 0 < n ∧ log = [Debug "unsampling spans in a trace" n]
         ∧ length (spansOf out) + n = length (spansOf td).
Proof.
  intros Hu. unfold processTraces.
  destruct (getSingleTraceId td) as [t|]; [|intros [= <- <-]; left; auto].
  destruct (sampled hash its t); [intros [= <- <-]; left; auto|].
  destruct (getScopeBranchesToUnsample _ _ _) as [m|] eqn:Hr; [|done]. simpl.
  case_bool_decide as Hsz; intros [= <- <-]; [left; auto|right].
  exists (size m). split_and!; [lia|done|].
  rewrite removeSpansByIds_compact. by eapply removed_span_count.
Qed.

Lemma X11_debug_entry_counts_removed_spans_witness :
  length (spansOf (removeSpansByIds chain_AAB {[ 3%N := true ]})) + 1
  = length (spansOf chain_AAB).
Proof.
  assert (uniqueSpanIDs chain_AAB) as Hu by by_evaluation.
  destruct (X11_debug_entry_counts_removed_spans (λ _ _, 0%N) (leavesProcessor ["B"])
              chain_AAB (removeSpansByIds chain_AAB {[ 3%N := true ]}) 3
              [Debug "unsampling spans in a trace" 1] Hu eq_refl)
    as [[_ [H|H]]|(n & _ & Hlog & Hn)].
  - discriminate H.
  - discriminate H.
  - injection Hlog as <-. exact Hn.
Defined.

Lemma ancestor_compact td m j k y :
  uniqueSpanIDs td →
  ancestor (spansToTraceTree (compact m td)) j k = Some y →
  ancestor (spansToTraceTree td) j k = Some y.
Proof.
  intros Hu. revert k. induction j as [|j IH]; intros k; [done|]. cbn [ancestor].
  destruct (fullSpans (spansToTraceTree (compact m td)) !! k) as [fs|] eqn:E; [|done].
  apply (compact_fullSpans td m Hu) in E as [E _]. rewrite E. apply IH.
Qed.

(** X12: [processTraces] keeps what it relies on.  If the batch has unique
    span identities, so has the output; if all its spans belong to trace
    [t], so do the spans of the output; and if its parent references are
    acyclic, so are those of the output. *)
Theorem X12_output_stays_well_formed (hash : N → N → N) (its : inTraceSamplerProcessor)
    (td out : list ptrace_ResourceSpans) (fuel : nat) (log : list LogEntry) (t : N) :
  uniqueSpanIDs td → getSingleTraceId td = Some t →
  processTraces hash fuel its td = Some (out, log) →
  uniqueSpanIDs out
  ∧ (∀ s, s ∈ spansOf out → TraceID s = t)
  ∧ (acyclicParents td → acyclicParents out).
Proof.
  intros Hu Hs Hr.
  assert (out = td ∨ ∃ m, out = compact m td) as [->|[m ->]].
  { revert Hr. unfold processTraces. rewrite Hs.
    destruct (sampled hash its t); [intros [= <- _]; by left|].
    destruct (getScopeBranchesToUnsample _ _ _) as [m|]; [|done]. simpl.
    case_bool_decide; intros [= <- _]; [by left|right].
    exists m. apply removeSpansByIds_compact. }
  { split_and!; [done| |done]. by apply getSingleTraceId_Some in Hs as [_ ?]. }
  pose proof (compact_unique td m Hu) as Hu'. split_and!; [done| |].
  - apply getSingleTraceId_Some in Hs as [_ Hall]. intros s Hin. apply Hall.
    unfold spansOf in *. rewrite fullSpansOf_compact in Hin.
    apply list_elem_of_fmap in Hin as (fs & -> & [_ Hfs]%list_elem_of_filter).
    by apply list_elem_of_fmap_2.
  - rewrite !acyclicParents_no_cycle by done. intros Hno k j Hk Hj Hcyc.
    apply (Hno k j); [|done|by eapply ancestor_compact].
    rewrite batchIds_compact in Hk. by apply list_elem_of_filter in Hk as [_ ?].
Qed.

Lemma X12_output_stays_well_formed_witness :
  uniqueSpanIDs (removeSpansByIds chain_AAB {[ 3%N := true ]})
  ∧ acyclicParents (removeSpansByIds chain_AAB {[ 3%N := true ]}).
Proof.
  assert (uniqueSpanIDs chain_AAB) as Hu by by_evaluation.
  destruct (X12_output_stays_well_formed (λ _ _, 0%N) (leavesProcessor ["B"]) chain_AAB
              (removeSpansByIds chain_AAB {[ 3%N := true ]}) 3
              [Debug "unsampling spans in a trace" 1] 7 Hu eq_refl eq_refl)
    as (Hu' & _ & Ha').
  split; [exact Hu'|]. apply Ha'. by_evaluation.
Defined.
Lemma compact_all_marked m (td : list ptrace_ResourceSpans) :
  (∀ fs, fs ∈ fullSpansOf td → marked m (idOf fs) = true) → compact m td = [].
Proof.
  intros Hall. unfold compact. apply filter_nil_iff.
  intros rs' (rs & -> & Hrs)%list_elem_of_fmap Hne. apply Hne.
  apply pruneResourceSpans_all_marked. intros fs Hfs. apply Hall.
  unfold fullSpansOf. apply list_elem_of_bind. by exists rs.
Qed.

(** X13: the processor can hand on an empty batch.  When the trace is not
    accepted as a whole and every span sits under a leaf scope (unique
    identities, acyclic parents), every span is removed, no grouping is
    left, and the debug entry counts all the spans. *)
Theorem X13_all_leaf_scopes_empties_batch (hash : N → N → N)
    (its : inTraceSamplerProcessor) (td : list ptrace_ResourceSpans) (t : N) (fuel : nat) :
  getSingleTraceId td = Some t → sampled hash its t = false →
  uniqueSpanIDs td → acyclicParents td → length (batchIds td) ≤ fuel →
  (∀ fs, fs ∈ fullSpansOf td → Name (scope fs) ∈ ScopeLeaves (config its)) →
  processTraces hash fuel its td
  = Some ([], [Debug "unsampling spans in a trace" (length (spansOf td))]).
Proof.
  intros Hs Hsam Hu Ha Hf Hleaf.
  destruct (getScopeBranchesToUnsample_batch its td fuel Hu Hf)
    as (m & _ & _ & Hr & Ht & _ & _ & Hm).
  pose proof (spansToTraceTree_wf td Hu) as Hwf.
  assert (∀ fs, fs ∈ fullSpansOf td → marked m (idOf fs) = true) as Hall.
  { intros fs Hin. apply marked_true, Hm.
    assert (idOf fs ∈ batchIds td) as Hk by by apply list_elem_of_fmap_2.
    destruct (acyclicParents_depth td _ Hu Ha Hk) as [d Hd].
    split; [by exists d|]. apply (prunable_iff_subtree _ _ Hwf _ d Hd).
    intros y Hy. destruct (inSubtree_depth _ Hwf _ _ _ Hd Hy) as (j & Hdy & _).
    apply depth_is_Some in Hdy as [fy Hfy]. exists fy. split; [done|].
    apply Hleaf. by apply tree_fullSpans_Some in Hfy as [_ ?]. }
  pose proof (removed_span_count its td fuel m Hu Hr) as Hcount.
  rewrite (compact_all_marked m td Hall) in Hcount. simpl in Hcount.
  rewrite (processTraces_pruning hash fuel its td t Hs Hsam), Hr. simpl.
  apply getSingleTraceId_Some in Hs as [Hne _].
  assert (length (spansOf td) ≠ 0) by by destruct (spansOf td).
  rewrite bool_decide_false by lia.
  by rewrite removeSpansByIds_compact, (compact_all_marked m td Hall), Hcount.
Qed.

Lemma X13_all_leaf_scopes_empties_batch_witness :
  processTraces (λ _ _, 0%N) 3 (leavesProcessor ["A"; "B"]) chain_AAB
  = Some ([], [Debug "unsampling spans in a trace" 3]).
Proof.
  apply (X13_all_leaf_scopes_empties_batch (λ _ _, 0%N) (leavesProcessor ["A"; "B"])
           chain_AAB 7 3).
  - reflexivity.
  - reflexivity.
  - by_evaluation.
  - by_evaluation.
  - vm_compute. lia.
  - intros fs Hfs. vm_compute in Hfs.
    repeat (apply elem_of_cons in Hfs as [->|Hfs]; [by_evaluation|]).
    by apply elem_of_nil in Hfs.
Defined.

(** ** The sampling decision *)

(** X14: "using a power of 2 to avoid division": the masked hash is the
    hash modulo [numHashBuckets], so the decision depends on the hash only
    through its residue, two hashes that agree modulo 16384 decide alike,
    and a rate of [numHashBuckets] or more accepts every trace. *)
Theorem X14_mask_is_modulo (hash hash' : N → N → N) (its : inTraceSamplerProcessor) (t : N) :
  sampled hash its t
  = bool_decide (hash t (HashSeed (config its)) `mod` numHashBuckets < scaledSamplingRate its)%N
  ∧ ((hash t (HashSeed (config its)) `mod` numHashBuckets
      = hash' t (HashSeed (config its)) `mod` numHashBuckets)%N →
     sampled hash its t = sampled hash' its t)
  ∧ ((numHashBuckets ≤ scaledSamplingRate its)%N → sampled hash its t = true).
Proof.
  assert (∀ h, N.land h bitMaskHashBuckets = (h `mod` numHashBuckets)%N) as Hmask.
  { intros h. change bitMaskHashBuckets with (N.ones 14). by rewrite N.land_ones. }
  unfold sampled. rewrite !Hmask. split_and!; [done|by intros ->|].
  intros Hrate. apply bool_decide_eq_true.
  assert (hash t (HashSeed (config its)) `mod` numHashBuckets < numHashBuckets)%N
    by by apply N.mod_lt.
  lia.
Qed.

Lemma X14_mask_is_modulo_witness :
  sampled (λ _ _, 16384 + 5)%N
    {| config := {| SamplingPercentage := pct_15_3; HashSeed := 22; ScopeLeaves := [] |};
       scaledSamplingRate := 6 |} 7
  = sampled (λ _ _, 5)%N
      {| config := {| SamplingPercentage := pct_15_3; HashSeed := 22; ScopeLeaves := [] |};
         scaledSamplingRate := 6 |} 7.
Proof.
  apply (proj1 (proj2 (X14_mask_is_modulo (λ _ _, 16384 + 5)%N (λ _ _, 5)%N
    {| config := {| SamplingPercentage := pct_15_3; HashSeed := 22; ScopeLeaves := [] |};
       scaledSamplingRate := 6 |} 7))).
  reflexivity.
Defined.
Section rate_order.
Local Open Scope Z_scope.

Lemma exactThreshold_shift (m e d : Z) :
  0 ≤ d →
  exactThreshold {| fmant := m * 2 ^ d; fexp := e - d |}
  = exactThreshold {| fmant := m; fexp := e |}.
Proof.
  intros Hd. unfold exactThreshold. cbn [fmant fexp]. f_equal.
  change (Z.of_N numHashBuckets) with 16384.
  assert (0 < 2 ^ d) by (apply Z.pow_pos_nonneg; lia).
  destruct (Z.leb_spec 0 e) as [He|He], (Z.leb_spec 0 (e - d)) as [Hed|Hed]; try lia.
  - replace (m * 2 ^ d * 2 ^ (e - d)) with (m * 2 ^ e); [done|].
    rewrite <- Z.mul_assoc, <- Z.pow_add_r by lia. do 2 f_equal. lia.
  - assert (2 ^ d = 2 ^ e * 2 ^ (- (e - d))) as ->.
    { rewrite <- Z.pow_add_r by lia. f_equal. lia. }
    assert (0 < 2 ^ (- (e - d))) by (apply Z.pow_pos_nonneg; lia).
    replace (m * (2 ^ e * 2 ^ (- (e - d))) * 16384)
      with (m * 2 ^ e * 16384 * 2 ^ (- (e - d))) by ring.
    by rewrite Z.div_mul_cancel_r by lia.
  - assert (2 ^ (- (e - d)) = 2 ^ (- e) * 2 ^ d) as ->.
    { rewrite <- Z.pow_add_r by lia. f_equal. lia. }
    assert (0 < 2 ^ (- e)) by (apply Z.pow_pos_nonneg; lia).
    replace (m * 2 ^ d * 16384) with (m * 16384 * 2 ^ d) by ring.
    rewrite Z.mul_assoc. by rewrite Z.div_mul_cancel_r by lia.
Qed.

Lemma exactThreshold_same_exponent (m1 m2 e : Z) :
  0 ≤ m1 ≤ m2 →
  (exactThreshold {| fmant := m1; fexp := e |} ≤ exactThreshold {| fmant := m2; fexp := e |})%N.
Proof.
  intros Hm. unfold exactThreshold. cbn [fmant fexp].
  change (Z.of_N numHashBuckets) with 16384.
  destruct (Z.leb_spec 0 e).
  - assert (0 ≤ 2 ^ e) by (apply Z.pow_nonneg; lia).
    apply Z2N.inj_le; [apply Z.div_pos; [nia|lia]..|].
    apply Z.div_le_mono; [lia|nia].
  - assert (0 < 2 ^ (- e)) by (apply Z.pow_pos_nonneg; lia).
    apply Z2N.inj_le; [apply Z.div_pos; [nia|lia]..|].
    apply Z.div_le_mono; [lia|nia].
Qed.

Lemma exactThreshold_mono (x y : float) :
  0 ≤ fmant x → float_le x y → (exactThreshold x ≤ exactThreshold y)%N.
Proof.
  destruct x as [m1 e1], y as [m2 e2]. unfold float_le. simpl. intros Hm Hle.
  set (e := Z.min e1 e2) in *.
  rewrite <- (exactThreshold_shift m1 e1 (e1 - e)), <- (exactThreshold_shift m2 e2 (e2 - e)) by lia.
  replace (e1 - (e1 - e)) with e by lia. replace (e2 - (e2 - e)) with e by lia.
  apply exactThreshold_same_exponent. split; [|done].
  assert (0 ≤ 2 ^ (e1 - e)) by (apply Z.pow_nonneg; lia). nia.
Qed.

Lemma exactThreshold_bound (x : float) :
  0 ≤ fmant x → at_most_100 x → (exactThreshold x ≤ numHashBuckets)%N.
Proof.
  destruct x as [m e]. unfold at_most_100, exactThreshold. cbn [fmant fexp]. intros Hm H100.
  change (Z.of_N numHashBuckets) with 16384. change numHashBuckets with (Z.to_N 16384).
  destruct (Z.leb_spec 0 e).
  - assert (0 ≤ 2 ^ e) by (apply Z.pow_nonneg; lia).
    apply Z2N.inj_le; [apply Z.div_pos; [nia|lia]|lia|].
    assert (m * 2 ^ e * 16384 / 100 ≤ 100 * 16384 / 100) by (apply Z.div_le_mono; lia).
    change (100 * 16384 / 100) with 16384 in *. lia.
  - assert (0 < 2 ^ (- e)) by (apply Z.pow_pos_nonneg; lia).
    apply Z2N.inj_le; [apply Z.div_pos; [nia|lia]|lia|].
    assert (m * 16384 / (100 * 2 ^ (- e)) ≤ 16384 * (100 * 2 ^ (- e)) / (100 * 2 ^ (- e)))
      by (apply Z.div_le_mono; lia).
    rewrite Z.div_mul in * by lia. lia.
Qed.
Lemma at_most_100_le (x y : float) :
  0 ≤ fmant x → float_le x y → at_most_100 y → at_most_100 x.
Proof.
  destruct x as [m1 e1], y as [m2 e2]. unfold at_most_100, float_le. cbn [fmant fexp].
  intros Hm Hle H100.
  set (e := Z.min e1 e2) in *.
  assert (0 < 2 ^ (e1 - e)) as H1 by (apply Z.pow_pos_nonneg; lia).
  assert (0 < 2 ^ (e2 - e)) as H2 by (apply Z.pow_pos_nonneg; lia).
  destruct (Z.leb_spec 0 e1) as [He1|He1], (Z.leb_spec 0 e2) as [He2|He2].
  - assert (0 < 2 ^ e) as H3 by (apply Z.pow_pos_nonneg; lia).
    assert (2 ^ e1 = 2 ^ (e1 - e) * 2 ^ e) as ->
      by (rewrite <- Z.pow_add_r by lia; f_equal; lia).
    assert (2 ^ e2 = 2 ^ (e2 - e) * 2 ^ e) as Heq2
      by (rewrite <- Z.pow_add_r by lia; f_equal; lia).
    rewrite Heq2 in H100. nia.
  - assert (e = e2) as He by lia. rewrite He in *. rewrite Z.sub_diag in Hle.
    change (2 ^ 0) with 1 in Hle.
    assert (0 < 2 ^ e1) as H3 by (apply Z.pow_pos_nonneg; lia).
    assert (0 < 2 ^ (- e2)) as H4 by (apply Z.pow_pos_nonneg; lia).
    assert (2 ^ (e1 - e2) = 2 ^ e1 * 2 ^ (- e2)) as Heq
      by (rewrite <- Z.pow_add_r by lia; f_equal; lia).
    rewrite Heq in Hle. nia.
  - assert (e = e1) as He by lia. rewrite He in *. rewrite Z.sub_diag in Hle.
    change (2 ^ 0) with 1 in Hle.
    assert (0 < 2 ^ e2) as H3 by (apply Z.pow_pos_nonneg; lia).
    assert (0 < 2 ^ (- e1)) as H4 by (apply Z.pow_pos_nonneg; lia).
    assert (2 ^ (e2 - e1) = 2 ^ e2 * 2 ^ (- e1)) as Heq
      by (rewrite <- Z.pow_add_r by lia; f_equal; lia).
    rewrite Heq in Hle. nia.
  - assert (0 < 2 ^ (- e1)) as H4 by (apply Z.pow_pos_nonneg; lia).
    assert (0 < 2 ^ (- e2)) as H5 by (apply Z.pow_pos_nonneg; lia).
    destruct (Z.min_spec e1 e2) as [[Hlt He]|[Hlt He]]; fold e in He; rewrite He in *;
      rewrite Z.sub_diag in Hle; change (2 ^ 0) with 1 in Hle.
    + assert (2 ^ (- e1) = 2 ^ (- e2) * 2 ^ (e2 - e1)) as ->
        by (rewrite <- Z.pow_add_r by lia; f_equal; lia).
      nia.
    + assert (2 ^ (- e2) = 2 ^ (- e1) * 2 ^ (e1 - e2)) as Heq
        by (rewrite <- Z.pow_add_r by lia; f_equal; lia).
      rewrite Heq in H100. nia.
Qed.
End rate_order.

(** X15: raising the percentage never rejects a trace that was accepted.
    For two percentages in [0,100] of the same format, the larger one
    gives the larger (or the same) rate, no rate exceeds [numHashBuckets],
    and with the same seed a trace accepted as a whole under the smaller
    percentage is accepted under the larger. *)
Theorem X15_rate_is_monotone (hash : N → N → N) (fmt : binary_format)
    (cfg1 cfg2 : Config) (t : N) :
  fmt = binary32 ∨ fmt = binary64 →
  in_format fmt (SamplingPercentage cfg1) → in_format fmt (SamplingPercentage cfg2) →
  at_most_100 (SamplingPercentage cfg2) →
  float_le (SamplingPercentage cfg1) (SamplingPercentage cfg2) →
  HashSeed cfg1 = HashSeed cfg2 →
  (scaledSamplingRate (newInTraceSamplerSpansProcessor fmt cfg1)
   ≤ scaledSamplingRate (newInTraceSamplerSpansProcessor fmt cfg2))%N
  ∧ (scaledSamplingRate (newInTraceSamplerSpansProcessor fmt cfg2) ≤ numHashBuckets)%N
  ∧ (sampled hash (newInTraceSamplerSpansProcessor fmt cfg1) t = true →
     sampled hash (newInTraceSamplerSpansProcessor fmt cfg2) t = true).
Proof.
  intros Hfmt Hin1 Hin2 H100 Hle Hseed.
  pose proof Hin1 as [[Hm1 _] _]. pose proof Hin2 as [[Hm2 _] _].
  pose proof (exactThreshold_mono _ _ Hm1 Hle) as Hmono.
  pose proof (exactThreshold_bound _ Hm2 H100) as Hbound.
  assert (at_most_100 (SamplingPercentage cfg1)) as H100'.
  { apply (at_most_100_le _ (SamplingPercentage cfg2)); done. }
  rewrite !scaledSamplingRate_exact by done.
  split_and!; [done..|].
  unfold sampled. rewrite !scaledSamplingRate_exact by done. simpl. rewrite Hseed.
  rewrite !bool_decide_eq_true. lia.
Qed.
Lemma X15_rate_is_monotone_witness :
  (scaledSamplingRate
     (newInTraceSamplerSpansProcessor binary32
        {| SamplingPercentage := pct_15_3; HashSeed := 22; ScopeLeaves := [] |})
   ≤ scaledSamplingRate
       (newInTraceSamplerSpansProcessor binary32
          {| SamplingPercentage := {| fmant := 50; fexp := 0 |}; HashSeed := 22;
             ScopeLeaves := [] |}))%N.
Proof.
  refine (proj1 (X15_rate_is_monotone (λ _ _, 0%N) binary32
                   {| SamplingPercentage := pct_15_3; HashSeed := 22; ScopeLeaves := [] |}
                   {| SamplingPercentage := {| fmant := 50; fexp := 0 |}; HashSeed := 22;
                      ScopeLeaves := [] |} 7%N _ _ _ _ _ _)).
  - left. reflexivity.
  - split; [split|]; by_evaluation.
  - split; [split|]; by_evaluation.
  - unfold at_most_100. by_evaluation.
  - unfold float_le. by_evaluation.
  - reflexivity.
Defined.
(** X16: a span whose chain of parents never leaves the batch (it is on a
    cycle of parent references, or below one) is below no root, so on a
    batch with unique span identities it is never removed, whatever its
    scope. *)
Theorem X16_spans_on_cycles_are_kept (hash : N → N → N) (its : inTraceSamplerProcessor)
    (td : list ptrace_ResourceSpans) (fuel : nat) (fs : FullSpan) :
  uniqueSpanIDs td → length (batchIds td) ≤ fuel →
  fs ∈ fullSpansOf td →
  leavesBatch (spansToTraceTree td) (S (length (batchIds td))) (SpanID (span fs)) = false →
  ∃ out log, processTraces hash fuel its td = Some (out, log) ∧ fs ∈ fullSpansOf out.
Proof.
  intros Hu Hf Hin Hcyc.
  destruct (getScopeBranchesToUnsample_batch its td fuel Hu Hf)
    as (m & _ & _ & Hr & _ & _ & _ & Hm).
  unfold processTraces.
  destruct (getSingleTraceId td) as [t|]; [|by eexists _, _].
  destruct (sampled hash its t); [by eexists _, _|]. rewrite Hr. simpl.
  case_bool_decide; [by eexists _, _|].
  eexists _, _. split; [done|].
  rewrite removeSpansByIds_compact, fullSpansOf_compact. apply list_elem_of_filter.
  split; [|done]. destruct (marked m (idOf fs)) eqn:E; [|done].
  apply marked_true, Hm in E as [Hd _].
  apply (leavesBatch_depth_size _ (S (length (batchIds td)))) in Hd.
  - unfold idOf in Hd. congruence.
  - rewrite tree_size by done. lia.
  - apply tree_fullSpans_is_Some. by apply list_elem_of_fmap_2.
Qed.

Lemma X16_spans_on_cycles_are_kept_witness :
  ∃ out log,
    processTraces (λ _ _, 0%N) 3 (leavesProcessor ["A"]) cycle_batch = Some (out, log)
    ∧ (mkFullSpan exampleResource (scopeNamed "A") (exampleSpan 2 1)) ∈ fullSpansOf out.
Proof.
  apply (X16_spans_on_cycles_are_kept (λ _ _, 0%N) (leavesProcessor ["A"]) cycle_batch 3).
  - by_evaluation.
  - vm_compute. lia.
  - by_evaluation.
  - reflexivity.
Defined.
